(** * Scan-ID log sorter: a shallow embedding of [sort_scan_id.py]

    The program has one operation, [create_sorted_copy]: it copies a CSV
    log, reads the copy back with [csv.reader], keeps the rows whose first
    field starts with a timestamp that [datetime.strptime] accepts, sorts
    them newest first and rewrites the copy with [csv.writer].

    Conventions of the embedding.
    - A Python [str] is a [string]; a character is an [ascii], read as the
      code point of that number (the text is taken to be Latin-1).
    - A CSV record is a [list string]; a table is a list of records.
    - Python exceptions are the values of [exn]; a call that may raise
      returns [exn + A].
    - The file system is a finite map from paths to the contents of
      regular files; standard output is the list of messages printed.
    - The library calls the program makes ([str.split], [strptime],
      [sorted], [csv.reader], [csv.writer], [os.path], [shutil.copy2]) are
      embedded after their CPython 3 implementations, with the POSIX flavour
      of [os.path] and the default [excel] CSV dialect. *)

From stdpp Require Import gmap strings list fin_maps sorting.
From Stdlib Require Import Ascii.
From Stdlib Require String.

#[local] Open Scope stdpp_scope.

(** In this file [simpl] may unfold the append of strings on a string
    that starts with a character (stdpp switches that off). *)
#[local] Arguments String.append : simpl nomatch.

(** ** Exceptions *)

(** The exception classes the program can meet.  All of them derive from
    Python's [Exception]. *)
Inductive exn : Type :=
| ValueError
| IndexError
| StopIteration
| csv_Error
| SameFileError
| OSError.

#[global] Instance exn_eq_dec : EqDecision exn.
Proof. solve_decision. Defined.

(** [isinstance(e, Exception)]: what an [except Exception] clause catches. *)
Definition is_Exception (e : exn) : bool :=
  match e with
  | ValueError | IndexError | StopIteration
  | csv_Error | SameFileError | OSError => true
  end.

Abbreviation result A := (exn + A)%type.

Definition rbind {A B} (x : result A) (f : A -> result B) : result B :=
  match x with
  | inl e => inl e
  | inr a => f a
  end.

Notation "x <-? c1 ; c2" := (rbind c1 (fun x => c2))
  (at level 100, c1 at next level, right associativity).

(** ** Strings *)

Module Str.

(** [s.startswith(pre)] *)
Fixpoint startswith (pre s : string) : bool :=
  match pre, s with
  | EmptyString, _ => true
  | String a pre', String b s' => if decide (a = b) then startswith pre' s' else false
  | String _ _, EmptyString => false
  end.

(** [s.find(sub)], with [None] for Python's [-1]. *)
Fixpoint find (sub s : string) : option nat :=
  if startswith sub s then Some 0
  else match s with
       | EmptyString => None
       | String _ s' => S <$> find sub s'
       end.

(** [sub in s] *)
Definition contains (sub s : string) : bool :=
  match find sub s with Some _ => true | None => false end.

(** [s[:n]] and [s[n:]] *)
Fixpoint take (n : nat) (s : string) : string :=
  match n, s with
  | S n', String c s' => String c (take n' s')
  | _, _ => EmptyString
  end.

Fixpoint drop (n : nat) (s : string) : string :=
  match n, s with
  | S n', String _ s' => drop n' s'
  | _, _ => s
  end.

(** [s.split(sep)] for a non-empty separator: the pieces between the
    occurrences of [sep], found left to right without overlap.  Every cut
    removes at least one character, so [String.length s] rounds are
    enough. *)
Fixpoint split_go (fuel : nat) (sep s : string) : list string :=
  match fuel with
  | 0 => [s]
  | S fuel' =>
      match find sep s with
      | None => [s]
      | Some i => take i s :: split_go fuel' sep (drop (i + String.length sep) s)
      end
  end.

Definition split (sep s : string) : list string :=
  split_go (String.length s) sep s.

(** [c in s] for a character. *)
Fixpoint mem (c : ascii) (s : string) : bool :=
  match s with
  | EmptyString => false
  | String a s' => if decide (a = c) then true else mem c s'
  end.

End Str.

(** [l[0]] *)
Definition getitem0 {A} (l : list A) : result A :=
  match l with
  | [] => inl IndexError
  | x :: _ => inr x
  end.

(** ** Regular expressions, as far as [_strptime] needs them

    [_strptime] turns a format into a regular expression and runs
    [re.match] on it.  [re] is a backtracking matcher: alternatives are
    tried left to right, a repetition is greedy, and the first way through
    the whole expression wins. *)

Module Regex.

Inductive regex : Type :=
| Chr (c : ascii)                    (* a literal character *)
| Cls (p : ascii -> bool)            (* a character class *)
| Seq (r1 r2 : regex)                (* r1 r2 *)
| Alt (r1 r2 : regex)                (* r1|r2 *)
| Plus (p : ascii -> bool)           (* [class]+ , greedy *)
| Group (name : string) (r : regex). (* (?P<name>r) *)

Arguments Chr c%_char.

(** The named groups of a match, innermost and latest first. *)
Definition captures : Type := list (string * string).

Section Matcher.
Context {R : Type}.

Fixpoint plus_go (p : ascii -> bool) (s : string)
    (k : string -> option R) : option R :=
  match s with
  | String c s' =>
      if p c then
        match plus_go p s' k with
        | Some x => Some x
        | None => k s'
        end
      else None
  | EmptyString => None
  end.

(** [go r s caps k]: match [r] at the front of [s], then go on with
    [k] on what is left; [None] makes the matcher backtrack. *)
Fixpoint go (r : regex) (s : string) (caps : captures)
    (k : string -> captures -> option R) : option R :=
  match r with
  | Chr c =>
      match s with
      | String a s' => if decide (a = c) then k s' caps else None
      | EmptyString => None
      end
  | Cls p =>
      match s with
      | String a s' => if p a then k s' caps else None
      | EmptyString => None
      end
  | Seq r1 r2 => go r1 s caps (fun s1 caps1 => go r2 s1 caps1 k)
  | Alt r1 r2 =>
      match go r1 s caps k with
      | Some x => Some x
      | None => go r2 s caps k
      end
  | Plus p => plus_go p s (fun s' => k s' caps)
  | Group name r1 =>
      go r1 s caps (fun s' caps' =>
        k s' ((name, Str.take (String.length s - String.length s') s) :: caps'))
  end.
End Matcher.

(** [re.match(r, s)]: the groups of the first match at the start of [s]
    and the text after the match. *)
Definition re_match (r : regex) (s : string) : option (captures * string) :=
  go r s [] (fun rest caps => Some (caps, rest)).

(** [found.groupdict()[name]] *)
Fixpoint group (name : string) (caps : captures) : option string :=
  match caps with
  | [] => None
  | (n, v) :: caps' => if decide (n = name) then Some v else group name caps'
  end.

Definition in_range (lo hi c : ascii) : bool :=
  (nat_of_ascii lo <=? nat_of_ascii c) && (nat_of_ascii c <=? nat_of_ascii hi).

Arguments in_range (lo hi c)%_char.

(** [\d]: below code point 256 the decimal digits are 0 to 9. *)
Definition digit : ascii -> bool := in_range "0" "9".

(** [\s]: the characters below code point 256 for which [str.isspace]
    holds: TAB LF VT FF CR, FS GS RS US, SPACE, NEL and NBSP. *)
Definition space (c : ascii) : bool :=
  let n := nat_of_ascii c in
  ((9 <=? n) && (n <=? 13)) || ((28 <=? n) && (n <=? 32))
  || (n =? 133) || (n =? 160).

End Regex.

(** ** [datetime] *)

Module Datetime.
#[local] Open Scope Z_scope.

(** A naive [datetime] without microseconds: [strptime] with this
    program's format never sets a fraction or a time zone. *)
Record datetime : Type := mk {
  year : Z; month : Z; day : Z;
  hour : Z; minute : Z; second : Z
}.

#[global] Instance datetime_eq_dec : EqDecision datetime.
Proof. solve_decision. Defined.

Definition is_leap (y : Z) : bool :=
  (y mod 4 =? 0) && (negb (y mod 100 =? 0) || (y mod 400 =? 0)).

Definition days_in_month (y m : Z) : Z :=
  match m with
  | 2 => if is_leap y then 29 else 28
  | 4 | 6 | 9 | 11 => 30
  | _ => 31
  end.

Definition between (lo hi n : Z) : bool := (lo <=? n) && (n <=? hi).

(** [_check_date_fields]: MINYEAR is 1 and MAXYEAR is 9999. *)
Definition check_date_fields (y m d : Z) : result unit :=
  if negb (between 1 9999 y) then inl ValueError
  else if negb (between 1 12 m) then inl ValueError
  else if negb (between 1 (days_in_month y m) d) then inl ValueError
  else inr ().

(** [_check_time_fields] *)
Definition check_time_fields (h mi s : Z) : result unit :=
  if negb (between 0 23 h) then inl ValueError
  else if negb (between 0 59 mi) then inl ValueError
  else if negb (between 0 59 s) then inl ValueError
  else inr ().

(** [datetime(y, m, d, h, mi, s)] *)
Definition new (y m d h mi s : Z) : result datetime :=
  _ <-? check_date_fields y m d;
  _ <-? check_time_fields h mi s;
  inr (mk y m d h mi s).

(** Comparison of two naive datetimes: field by field, the year first. *)
Definition lex (c1 c2 : comparison) : comparison :=
  match c1 with
  | Eq => c2
  | _ => c1
  end.

Definition compare (a b : datetime) : comparison :=
  lex (year a ?= year b)
 (lex (month a ?= month b)
 (lex (day a ?= day b)
 (lex (hour a ?= hour b)
 (lex (minute a ?= minute b)
      (second a ?= second b))))).

(** [a < b] and [a <= b] *)
Definition ltb (a b : datetime) : bool :=
  match compare a b with Lt => true | _ => false end.

Definition leb (a b : datetime) : bool := negb (ltb b a).

End Datetime.

(** ** [datetime.strptime(s, '%Y/%m/%d %H:%M:%S')] *)

Module Strptime.
Import Regex.

Declare Scope re_scope.
Delimit Scope re_scope with re.
Infix "·" := Seq (at level 41, right associativity) : re_scope.
Infix "∣" := Alt (at level 51, right associativity) : re_scope.

Definition d : regex := Cls digit.
Definition r (lo hi : ascii) : regex := Cls (in_range lo hi).
Arguments r (lo hi)%_char.

(** The entries of [TimeRE] for the directives of the format. *)
Definition re_Y : regex := Group "Y" (d · d · d · d)%re.
Definition re_m : regex :=
  Group "m" (Chr "1" · r "0" "2" ∣ Chr "0" · r "1" "9" ∣ r "1" "9")%re.
Definition re_d : regex :=
  Group "d" (Chr "3" · r "0" "1" ∣ r "1" "2" · d ∣ Chr "0" · r "1" "9"
             ∣ r "1" "9" ∣ Chr " " · r "1" "9")%re.
Definition re_H : regex :=
  Group "H" (Chr "2" · r "0" "3" ∣ r "0" "1" · d ∣ d)%re.
Definition re_M : regex := Group "M" (r "0" "5" · d ∣ d)%re.
Definition re_S : regex :=
  Group "S" (Chr "6" · r "0" "1" ∣ r "0" "5" · d ∣ d)%re.

(** [TimeRE.pattern('%Y/%m/%d %H:%M:%S')]: the directives become their
    groups, the blank becomes [\s+], the other characters stand for
    themselves. *)
Definition format_regex : regex :=
  (re_Y · Chr "/" · re_m · Chr "/" · re_d · Plus space
   · re_H · Chr ":" · re_M · Chr ":" · re_S)%re.

Fixpoint lstrip (s : string) : string :=
  match s with
  | String c s' => if space c then lstrip s' else s
  | EmptyString => EmptyString
  end.

Fixpoint digits_value (acc : Z) (s : string) : option Z :=
  match s with
  | EmptyString => Some acc
  | String c s' =>
      if digit c
      then digits_value (10 * acc + (Z.of_nat (nat_of_ascii c) - 48))%Z s'
      else None
  end.

(** [int(s)] for the texts a group can hold: blanks, then decimal digits. *)
Definition int (s : string) : result Z :=
  match lstrip s with
  | EmptyString => inl ValueError
  | t => match digits_value 0 t with
         | Some n => inr n
         | None => inl ValueError
         end
  end.

(** The value of a directive: [int(found_dict[name])] when the group
    took part in the match, and [_strptime]'s default otherwise. *)
Definition field (name : string) (default : Z) (found : captures) : result Z :=
  match group name found with
  | Some v => int v
  | None => inr default
  end.

Definition strptime (data_string : string) : result Datetime.datetime :=
  match re_match format_regex data_string with
  | None => inl ValueError            (* does not match format *)
  | Some (found, rest) =>
      match rest with
      | String _ _ => inl ValueError  (* unconverted data remains *)
      | EmptyString =>
          year <-? field "Y" 1900 found;
          month <-? field "m" 1 found;
          day <-? field "d" 1 found;
          hour <-? field "H" 0 found;
          minute <-? field "M" 0 found;
          second <-? field "S" 0 found;
          (* the day of the year is computed from [date(year, month, day)] *)
          _ <-? Datetime.check_date_fields year month day;
          Datetime.new year month day hour minute second
      end
  end.

End Strptime.

(** ** [sorted(iterable, key=..., reverse=...)] *)

Module Sorted.
Section Sort.
Context {A K : Type} (ltb : K -> K -> bool).

(** [list.sort] decorates every element with its key, computed once,
    and from then on compares keys with [<] only.  A new element goes
    behind the elements already placed that are not greater than it
    ([binarysort]): that is what keeps the sort stable.  The merges of
    longer inputs are stable as well, and give the same list. *)
Fixpoint insort (x : K * A) (l : list (K * A)) : list (K * A) :=
  match l with
  | [] => [x]
  | y :: l' => if ltb x.1 y.1 then x :: y :: l' else y :: insort x l'
  end.

(** [done] is sorted already; the elements of [l] are placed one by
    one, in their order. *)
Fixpoint binarysort (done l : list (K * A)) : list (K * A) :=
  match l with
  | [] => done
  | x :: l' => binarysort (insort x done) l'
  end.

Definition sort (l : list (K * A)) : list (K * A) := binarysort [] l.

(** The keys, in the order of the elements; the first failing call of
    [key] ends it. *)
Fixpoint decorate (key : A -> result K) (l : list A) : result (list (K * A)) :=
  match l with
  | [] => inr []
  | a :: l' =>
      k <-? key a;
      kl <-? decorate key l';
      inr ((k, a) :: kl)
  end.

(** With [reverse=True] the list is reversed before and after the
    sort, so that equal keys still keep their order. *)
Definition sorted (key : A -> result K) (reverse_ : bool) (l : list A)
    : result (list A) :=
  kl <-? decorate key l;
  let kl := if reverse_ then reverse kl else kl in
  let kl := sort kl in
  let kl := if reverse_ then reverse kl else kl in
  inr (kl.*2).

(** Two notions for the statements about the sort.  [x] may stand
    before [y]: the key of [y] is not smaller. *)
Definition key_le (x y : K * A) : Prop := ltb y.1 x.1 = false.

(** Every element carries its own key. *)
Definition decorated (key : A -> result K) (kl : list (K * A)) : Prop :=
  Forall (fun x => key x.2 = inr x.1) kl.
End Sort.
End Sorted.

(** ** The [csv] module, with the default dialect

    [excel]: delimiter [,], quotechar the double quote, no escapechar,
    doublequote on, skipinitialspace off, lineterminator CR LF, minimal
    quoting, not strict. *)

Module Csv.

Definition LF : ascii := "010"%char.
Definition CR : ascii := "013"%char.
Definition delimiter : ascii := ","%char.
Definition quotechar : ascii := "034"%char.
Definition lineterminator : string := String CR (String LF "").

(** [csv.field_size_limit()] *)
Definition field_limit : N := 131072.

Definition is_newline (c : ascii) : bool :=
  bool_decide (c = LF) || bool_decide (c = CR).

(** *** Reading *)

(** The lines a text file opened with [newline=''] hands out: a line ends
    after LF, after CR LF, or after a CR that no LF follows, and keeps
    its ending. *)
Fixpoint readlines_go (cur s : string) : list string :=
  match s with
  | EmptyString => match cur with EmptyString => [] | _ => [cur] end
  | String c s' =>
      if decide (c = LF) then (cur +:+ String c "") :: readlines_go "" s'
      else if decide (c = CR) then
        match s' with
        | String c' s'' =>
            if decide (c' = LF)
            then (cur +:+ String c (String c' "")) :: readlines_go "" s''
            else (cur +:+ String c "") :: readlines_go "" s'
        | EmptyString => [cur +:+ String c ""]
        end
      else readlines_go (cur +:+ String c "") s'
  end.

Definition readlines (s : string) : list string := readlines_go "" s.

(** The states of the parser that the dialect can reach: without an
    escapechar the three escape states never occur. *)
Inductive ParserState : Type :=
| START_RECORD
| START_FIELD
| IN_FIELD
| IN_QUOTED_FIELD
| QUOTE_IN_QUOTED_FIELD
| EAT_CRNL.

#[global] Instance ParserState_eq_dec : EqDecision ParserState.
Proof. solve_decision. Defined.

(** The part of [ReaderObj] the parser works on.  (The parser of CPython
    3.11 and later is the one embedded here: older ones refuse a line with
    a NUL character.) *)
Record ReaderObj : Type := Reader {
  fields : list string;   (* the fields of the record so far *)
  field : string;         (* the field being built *)
  state : ParserState
}.

Definition set_state (st : ParserState) (self : ReaderObj) : ReaderObj :=
  Reader (fields self) (field self) st.

Definition parse_reset : ReaderObj := Reader [] "" START_RECORD.

Definition parse_save_field (self : ReaderObj) : ReaderObj :=
  Reader (fields self ++ [field self]) "" (state self).

Definition parse_add_char (self : ReaderObj) (c : ascii) : result ReaderObj :=
  if (field_limit <=? N.of_nat (String.length (field self)))%N
  then inl csv_Error      (* field larger than field limit *)
  else inr (Reader (fields self) (field self +:+ String c "") (state self)).

(** What the parser is fed: a character, or the end of a line. *)
Inductive input : Type :=
| Ch (c : ascii)
| EOL.

Definition ends_line (c : input) : bool :=
  match c with
  | Ch a => is_newline a
  | EOL => true
  end.

Definition after_line (c : input) : ParserState :=
  match c with
  | EOL => START_RECORD
  | Ch _ => EAT_CRNL
  end.

Definition start_field (self : ReaderObj) (c : input) : result ReaderObj :=
  match c with
  | EOL => inr (set_state START_RECORD (parse_save_field self))
  | Ch a =>
      if is_newline a then inr (set_state EAT_CRNL (parse_save_field self))
      else if decide (a = quotechar) then inr (set_state IN_QUOTED_FIELD self)
      else if decide (a = delimiter) then inr (parse_save_field self)
      else self' <-? parse_add_char self a; inr (set_state IN_FIELD self')
  end.

Definition parse_process_char (self : ReaderObj) (c : input) : result ReaderObj :=
  match state self with
  | START_RECORD =>
      match c with
      | EOL => inr self                         (* empty line *)
      | Ch a =>
          if is_newline a then inr (set_state EAT_CRNL self)
          else start_field (set_state START_FIELD self) c
      end
  | START_FIELD => start_field self c
  | IN_FIELD =>
      match c with
      | EOL => inr (set_state START_RECORD (parse_save_field self))
      | Ch a =>
          if is_newline a then inr (set_state EAT_CRNL (parse_save_field self))
          else if decide (a = delimiter)
          then inr (set_state START_FIELD (parse_save_field self))
          else parse_add_char self a
      end
  | IN_QUOTED_FIELD =>
      match c with
      | EOL => inr self
      | Ch a =>
          if decide (a = quotechar) then inr (set_state QUOTE_IN_QUOTED_FIELD self)
          else parse_add_char self a
      end
  | QUOTE_IN_QUOTED_FIELD =>
      match c with
      | EOL => inr (set_state START_RECORD (parse_save_field self))
      | Ch a =>
          if decide (a = quotechar)
          then self' <-? parse_add_char self a; inr (set_state IN_QUOTED_FIELD self')
          else if decide (a = delimiter)
          then inr (set_state START_FIELD (parse_save_field self))
          else if is_newline a
          then inr (set_state EAT_CRNL (parse_save_field self))
          else self' <-? parse_add_char self a; inr (set_state IN_FIELD self')
      end
  | EAT_CRNL =>
      match c with
      | EOL => inr (set_state START_RECORD self)
      | Ch a =>
          if is_newline a then inr self
          else inl csv_Error   (* new-line character seen in unquoted field *)
      end
  end.

(** One line: its characters, then the end-of-line mark. *)
Fixpoint parse_line (self : ReaderObj) (line : string) : result ReaderObj :=
  match line with
  | EmptyString => parse_process_char self EOL
  | String c line' =>
      self' <-? parse_process_char self (Ch c);
      parse_line self' line'
  end.

(** [Reader_iternext], after its [parse_reset]: lines are consumed until
    the parser is back at the start of a record.  At the end of the
    input a pending field, or an open quote, still makes a record.  The
    answer is the record and the lines not yet read; [None] is the end of
    the iteration. *)
Fixpoint iternext_go (self : ReaderObj) (lines : list string)
    : result (option (list string * list string)) :=
  match lines with
  | [] =>
      if negb (bool_decide (field self = "")) || bool_decide (state self = IN_QUOTED_FIELD)
      then inr (Some (fields (parse_save_field self), []))
      else inr None
  | line :: lines' =>
      self' <-? parse_line self line;
      if decide (state self' = START_RECORD)
      then inr (Some (fields self', lines'))
      else iternext_go self' lines'
  end.

(** [next(reader)] *)
Definition next (lines : list string) : result (list string * list string) :=
  o <-? iternext_go parse_reset lines;
  match o with
  | Some x => inr x
  | None => inl StopIteration
  end.

(** [list(reader)]: [Reader_iternext] until the iteration ends. *)
Fixpoint list_go (self : ReaderObj) (lines : list string)
    : result (list (list string)) :=
  match lines with
  | [] =>
      if negb (bool_decide (field self = "")) || bool_decide (state self = IN_QUOTED_FIELD)
      then inr [fields (parse_save_field self)]
      else inr []
  | line :: lines' =>
      self' <-? parse_line self line;
      if decide (state self' = START_RECORD)
      then rows <-? list_go parse_reset lines'; inr (fields self' :: rows)
      else list_go self' lines'
  end.

Definition list_reader (lines : list string) : result (list (list string)) :=
  list_go parse_reset lines.

(** *** Writing *)

(** [join_append_data]: the text of a field, every quote doubled, and
    whether the field has to be quoted. *)
Fixpoint join_append_data (field : string) : string * bool :=
  match field with
  | EmptyString => (EmptyString, false)
  | String c field' =>
      let '(text, quoted) := join_append_data field' in
      if decide (c = quotechar) then (String c (String c text), true)
      else if bool_decide (c = delimiter) || Str.mem c lineterminator
      then (String c text, true)
      else (String c text, quoted)
  end.

(** [join_append] for the field at position [num_fields] of a record. *)
Definition join_append (rec : string) (num_fields : nat) (field : string)
    (quoted : bool) : string :=
  let '(text, quoted') := join_append_data field in
  let quoted := quoted || quoted' in
  rec +:+ (if num_fields is 0 then "" else String delimiter "")
      +:+ (if quoted then String quotechar (text +:+ String quotechar "") else text).

Fixpoint join_fields (rec : string) (num_fields : nat) (row : list string) : string :=
  match row with
  | [] => rec
  | field :: row' => join_fields (join_append rec num_fields field false) (S num_fields) row'
  end.

(** [writer.writerow(row)]: the text handed to the file.  A record of
    one empty field is written as a pair of quotes. *)
Definition writerow (row : list string) : string :=
  let rec := join_fields "" 0 row in
  let rec :=
    if (0 <? length row) && bool_decide (rec = "")
    then join_append "" 0 "" true
    else rec in
  rec +:+ lineterminator.

(** [writer.writerows(rows)] *)
Fixpoint writerows (rows : list (list string)) : string :=
  match rows with
  | [] => ""
  | row :: rows' => writerow row +:+ writerows rows'
  end.

End Csv.

(** ** [os.path], POSIX flavour *)

Module Posixpath.

Definition sep : ascii := "/"%char.
Definition extsep : ascii := "."%char.

(** [p.rfind(c)], with [None] for [-1]. *)
Fixpoint rfind (c : ascii) (p : string) : option nat :=
  match p with
  | EmptyString => None
  | String a p' =>
      match rfind c p' with
      | Some i => Some (S i)
      | None => if decide (a = c) then Some 0 else None
      end
  end.

(** [p.rfind(sep) + 1] *)
Definition after_last_sep (p : string) : nat :=
  match rfind sep p with
  | Some i => S i
  | None => 0
  end.

(** [head == sep * len(head)] *)
Fixpoint all_seps (head : string) : bool :=
  match head with
  | EmptyString => true
  | String a head' => bool_decide (a = sep) && all_seps head'
  end.

(** [head.rstrip(sep)] *)
Fixpoint rstrip_sep (head : string) : string :=
  match head with
  | EmptyString => EmptyString
  | String a head' =>
      match rstrip_sep head' with
      | EmptyString => if decide (a = sep) then EmptyString else String a EmptyString
      | t => String a t
      end
  end.

Definition dirname (p : string) : string :=
  let i := after_last_sep p in
  let head := Str.take i p in
  if negb (bool_decide (head = "")) && negb (all_seps head)
  then rstrip_sep head
  else head.

Definition basename (p : string) : string :=
  Str.drop (after_last_sep p) p.

(** [p[i:i+1]] *)
Definition char_at (i : nat) (p : string) : string :=
  Str.take 1 (Str.drop i p).

(** The loop of [genericpath._splitext] that skips the leading dots of
    the file name: [n] is [dotIndex - filenameIndex]. *)
Fixpoint splitext_loop (n filenameIndex dotIndex : nat) (p : string)
    : string * string :=
  match n with
  | 0 => (p, "")
  | S n' =>
      if negb (bool_decide (char_at filenameIndex p = String extsep ""))
      then (Str.take dotIndex p, Str.drop dotIndex p)
      else splitext_loop n' (S filenameIndex) dotIndex p
  end.

Definition splitext (p : string) : string * string :=
  match rfind extsep p with
  | None => (p, "")
  | Some dotIndex =>
      let filenameIndex := after_last_sep p in
      (* dotIndex > sepIndex *)
      if filenameIndex <=? dotIndex
      then splitext_loop (dotIndex - filenameIndex) filenameIndex dotIndex p
      else (p, "")
  end.

(** [s.endswith(sep)] *)
Fixpoint endswith_sep (s : string) : bool :=
  match s with
  | EmptyString => false
  | String a EmptyString => bool_decide (a = sep)
  | String _ s' => endswith_sep s'
  end.

(** [os.path.join(a, b)] *)
Definition join (a b : string) : string :=
  if Str.startswith (String sep "") b then b
  else if bool_decide (a = "") || endswith_sep a then a +:+ b
  else a +:+ String sep "" +:+ b.

End Posixpath.

(** ** The world: files and standard output *)

(** What the program prints, one constructor for each [print] of the
    source. *)
Inductive message : Type :=
| msg_not_found (csv_path : string)
    (* Error: CSV file not found at {csv_path} *)
| msg_skipping (row : list string)
    (* Skipping invalid row: {row} *)
| msg_success (n : nat) (output_path : string)
    (* Successfully created sorted copy with {n} records at {output_path} *)
| msg_error (e : exn).
    (* Error creating sorted copy: {str(e)} *)

(** [files] maps the path of every regular file to its content.  [faults]
    is the script of the environment: each call that opens or copies a file
    takes the next entry, and an entry [Some e] makes that call raise [e]
    and leave the files alone (a permission that is missing, a full disk).
    With an empty script no call fails for a reason of the environment. *)
Record world : Type := World {
  files : gmap string string;
  stdout : list message;
  faults : list (option exn)
}.

Definition M (A : Type) : Type := world -> result A * world.

Definition ret {A} (a : A) : M A := fun w => (inr a, w).

Definition raise {A} (e : exn) : M A := fun w => (inl e, w).

Definition bind {A B} (m : M A) (f : A -> M B) : M B :=
  fun w =>
    match m w with
    | (inr a, w') => f a w'
    | (inl e, w') => (inl e, w')
    end.

Definition lift {A} (x : result A) : M A := fun w => (x, w).

Notation "x <- c1 ;; c2" := (bind c1 (fun x => c2))
  (at level 100, c1 at next level, right associativity).
Notation "c1 ;; c2" := (bind c1 (fun _ => c2))
  (at level 100, right associativity).

(** [try: body except Exception as e: handler(e)] *)
Definition try_except {A} (body : M A) (handler : exn -> M A) : M A :=
  fun w =>
    match body w with
    | (inl e, w') => if is_Exception e then handler e w' else (inl e, w')
    | (inr a, w') => (inr a, w')
    end.

Definition print (m : message) : M unit :=
  fun w => (inr (), World (files w) (stdout w ++ [m]) (faults w)).

(** The next entry of the script of the environment. *)
Definition environment : M unit :=
  fun w =>
    match faults w with
    | Some e :: script => (inl e, World (files w) (stdout w) script)
    | None :: script => (inr (), World (files w) (stdout w) script)
    | [] => (inr (), w)
    end.

(** [os.path.exists(path)] *)
Definition os_path_exists (path : string) : M bool :=
  fun w => (inr (bool_decide (is_Some (files w !! path))), w).

(** [shutil.copy2(src, dst)] between regular files. *)
Definition shutil_copy2 (src dst : string) : M unit :=
  environment;;
  fun w =>
    if decide (src = dst) then (inl SameFileError, w)
    else match files w !! src with
         | None => (inl OSError, w)    (* FileNotFoundError *)
         | Some data => (inr (), World (<[dst := data]> (files w)) (stdout w) (faults w))
         end.

(** [open(path, 'r', newline='')] and the reading of the whole file. *)
Definition read_text (path : string) : M string :=
  environment;;
  fun w =>
    match files w !! path with
    | None => (inl OSError, w)         (* FileNotFoundError *)
    | Some data => (inr data, w)
    end.

(** [open(path, 'w', newline='')], the writes, and the close. *)
Definition write_text (path : string) (data : string) : M unit :=
  environment;;
  fun w => (inr (), World (<[path := data]> (files w)) (stdout w) (faults w)).

(** ** The program *)

Definition date_format_sep : string := " (".

(** Lines 46 to 50, the body of the [try] of the loop: [true] when the
    row is appended. *)
Definition check_row (row : list string) : result bool :=
  match row with
  | [] => inr false                                  (* [row] is falsy *)
  | _ =>
      row0 <-? getitem0 row;
      match row0 with
      | EmptyString => inr false                     (* [row[0]] is falsy *)
      | _ =>
          if Str.startswith "npm " row0 then inr false
          else
            date_part <-? getitem0 (Str.split date_format_sep row0);
            _ <-? Strptime.strptime date_part;
            inr true
      end
  end.

(** Lines 44 to 52: the loop over the rows, with [sorted_rows] threaded
    through it. *)
Fixpoint filter_loop (rows : list (list string)) (sorted_rows : list (list string))
    : M (list (list string)) :=
  match rows with
  | [] => ret sorted_rows
  | row :: rows' =>
      sorted_rows <-
        try_except
          (appended <- lift (check_row row);;
           ret (if appended : bool then sorted_rows ++ [row] else sorted_rows))
          (fun e => print (msg_skipping row);; ret sorted_rows);;
      filter_loop rows' sorted_rows
  end.

(** Line 57: the key of the sort. *)
Definition sort_key (row : list string) : result Datetime.datetime :=
  row0 <-? getitem0 row;
  date_part <-? getitem0 (Str.split date_format_sep row0);
  Strptime.strptime date_part.

(** Lines 26 to 30: the output path when none is given. *)
Definition default_output_path (csv_path : string) : string :=
  let file_dir := Posixpath.dirname csv_path in
  let file_name := Posixpath.basename csv_path in
  let '(name, ext) := Posixpath.splitext file_name in
  Posixpath.join file_dir (name +:+ "_sorted" +:+ ext).

Definition create_sorted_copy (csv_path : string) (output_path : option string)
    : M (option string) :=
  try_except
    (found <- os_path_exists csv_path;;
     if negb found then
       print (msg_not_found csv_path);;
       ret None
     else
       let output_path := default (default_output_path csv_path) output_path in
       shutil_copy2 csv_path output_path;;
       csvfile <- read_text output_path;;
       let reader := Csv.readlines csvfile in
       first <- lift (Csv.next reader);;
       let '(header, reader) := first in
       rows <- lift (Csv.list_reader reader);;
       sorted_rows <- filter_loop rows [];;
       sorted_rows <- lift (Sorted.sorted Datetime.ltb sort_key true sorted_rows);;
       write_text output_path (Csv.writerow header +:+ Csv.writerows sorted_rows);;
       print (msg_success (length sorted_rows) output_path);;
       ret (Some output_path))
    (fun e =>
       print (msg_error e);;
       ret None).

(** * Notions for the statements *)

(** The part of a first field that is read as a timestamp: what stands
    before the first [" ("], or the whole field when there is none. *)
Definition date_part (row0 : string) : string :=
  match Str.find date_format_sep row0 with
  | Some i => Str.take i row0
  | None => row0
  end.

(** The rows the loop appends, and the messages it prints. *)
Definition kept (rows : list (list string)) : list (list string) :=
  filter (fun row => check_row row = inr true) rows.

Definition row_raises (row : list string) : bool :=
  if check_row row is inl _ then true else false.

Definition skipped (rows : list (list string)) : list message :=
  msg_skipping <$> filter (fun row => row_raises row = true) rows.

(** The path the copy goes to. *)
Definition destination (csv_path : string) (output_path : option string) : string :=
  default (default_output_path csv_path) output_path.

(** The messages that report a failure. *)
Definition diagnostic (m : message) : Prop :=
  match m with
  | msg_not_found _ | msg_error _ => True
  | msg_skipping _ | msg_success _ _ => False
  end.

(** The text a run leaves at the destination when the environment lets
    every call through: the sorted table, or the plain copy when reading
    the table raises. *)
Definition sorted_text (csvfile : string) : result string :=
  first <-? Csv.next (Csv.readlines csvfile);
  let '(header, reader) := first in
  rows <-? Csv.list_reader reader;
  sorted_rows <-? Sorted.sorted Datetime.ltb sort_key true (kept rows);
  inr (Csv.writerow header +:+ Csv.writerows sorted_rows).

Definition written (csvfile : string) : string :=
  match sorted_text csvfile with
  | inr text => text
  | inl _ => csvfile
  end.

(** ** Lines and fields *)

(** The text of the first line, without its ending. *)
Fixpoint first_line (s : string) : string :=
  match s with
  | EmptyString => EmptyString
  | String c s' => if Csv.is_newline c then EmptyString else String c (first_line s')
  end.

(** No quote and no line ending. *)
Fixpoint plain (s : string) : bool :=
  match s with
  | EmptyString => true
  | String c s' =>
      negb (Csv.is_newline c) && negb (bool_decide (c = Csv.quotechar)) && plain s'
  end.

(** The fields of a plain line: the pieces between its commas. *)
Fixpoint fields_of (cur line : string) : list string :=
  match line with
  | EmptyString => [cur]
  | String c line' =>
      if decide (c = Csv.delimiter) then cur :: fields_of "" line'
      else fields_of (cur +:+ String c "") line'
  end.

(** How a line can end. *)
Definition line_end (t : string) : Prop :=
  t = "" \/ t = String Csv.LF "" \/ t = String Csv.CR "" \/ t = Csv.lineterminator.

(** No comma. *)
Fixpoint no_delimiter (s : string) : bool :=
  match s with
  | EmptyString => true
  | String c s' => negb (bool_decide (c = Csv.delimiter)) && no_delimiter s'
  end.

(** Only dots. *)
Fixpoint all_dots (s : string) : bool :=
  match s with
  | EmptyString => true
  | String c s' => bool_decide (c = Posixpath.extsep) && all_dots s'
  end.

(** The acceptance test in the words of the specification: the first field
    is not empty, does not start with ["npm "], contains [" ("], and what
    stands before the first [" ("] parses. *)
Definition spec_accepts (row : list string) : Prop :=
  exists row0 t, head row = Some row0 /\ row0 <> "" /\
    Str.startswith "npm " row0 = false /\
    Str.contains date_format_sep row0 = true /\
    Strptime.strptime (date_part row0) = inr t.

(** The acceptance test of the program: as above, but a first field
    without [" ("] is read as a timestamp as a whole. *)
Definition accepts (row : list string) : Prop :=
  exists row0 t, head row = Some row0 /\ row0 <> "" /\
    Str.startswith "npm " row0 = false /\
    Strptime.strptime (date_part row0) = inr t.

(** ** Sample data *)

Module Sample.

Definition LF : string := String Csv.LF "".
Definition CRLF : string := Csv.lineterminator.

(** A log of two records, the older one first. *)
Definition log : string :=
  "CREATED,VAL" +:+ LF
  +:+ "2025/05/03 10:00:00 (Sat),A" +:+ LF
  +:+ "2025/05/04 09:00:00 (Sun),B" +:+ LF.

Definition world_with (path data : string) : world :=
  World {[ path := data ]} [] [].

Definition w : world := world_with "/data/scan.csv" log.

(** A log whose only record has a timestamp and nothing after it. *)
Definition bare_log : string :=
  "CREATED,VAL" +:+ LF +:+ "2025/05/04 09:00:00,B" +:+ LF.

(** A log whose header is quoted without need. *)
Definition quoted_log : string :=
  String Csv.quotechar "CREATED" +:+ String Csv.quotechar ",VAL" +:+ LF
  +:+ "2025/05/03 10:00:00 (Sat),A" +:+ LF.

End Sample.

(** ** The script *)

(** Lines 75 to 81, the body of [if __name__ == "__main__"].  [argv] is
    [sys.argv], the name of the script first.  The line that asks for a
    path is printed on no other way through the program, so the last
    component of the answer records it: [true] when it was printed. *)
Definition main (argv : list string) (w : world) : result unit * world * bool :=
  if 1 <? length argv then
    match argv !! 1 with
    | None => (inl IndexError, w, false)
    | Some original_csv_path =>
        let output_path := if 2 <? length argv then argv !! 2 else None in
        let '(r, w') := create_sorted_copy original_csv_path output_path w in
        match r with
        | inl e => (inl e, w', false)
        | inr _ => (inr (), w', false)
        end
    end
  else (inr (), w, true).

(** ** More notions for the statements *)

(** The header and the rows of a table, as lines 37 to 39 read them. *)
Definition read_table (csvfile : string) : result (list string * list (list string)) :=
  first <-? Csv.next (Csv.readlines csvfile);
  rows <-? Csv.list_reader first.2;
  inr (first.1, rows).

(** The accepted rows, newest first. *)
Definition newest_first (rows : list (list string)) : list (list string) :=
  match Sorted.sorted Datetime.ltb sort_key true (kept rows) with
  | inr body => body
  | inl _ => []
  end.

(** The rows the loop passes over without a word. *)
Definition silent (rows : list (list string)) : list (list string) :=
  filter (fun row => check_row row = inr false) rows.

(** A timestamp of the calendar. *)
Definition valid_datetime (t : Datetime.datetime) : Prop :=
  (1 <= Datetime.year t <= 9999)%Z /\
  (1 <= Datetime.month t <= 12)%Z /\
  (1 <= Datetime.day t <= Datetime.days_in_month (Datetime.year t) (Datetime.month t))%Z /\
  (0 <= Datetime.hour t <= 23)%Z /\
  (0 <= Datetime.minute t <= 59)%Z /\
  (0 <= Datetime.second t <= 59)%Z.

(** The loop of [splitext] looks for a character that is no dot:
    [dots_only n i p] says that it finds none among the [n] characters of
    [p] from position [i] on. *)
Fixpoint dots_only (n i : nat) (p : string) : bool :=
  match n with
  | 0 => true
  | S n' =>
      bool_decide (Posixpath.char_at i p = String Posixpath.extsep "")
      && dots_only n' (S i) p
  end.

(** ** The reader, character by character

    [csv.reader] is fed lines, and a line ends after LF, after CR LF, or
    after a lone CR.  The same parser can be driven by the characters of
    the whole text when one remembers where in a line it stands. *)

Module Stream.
Import Csv.

Inductive mode : Type :=
| LineStart     (* nothing of the line read yet *)
| MidLine       (* inside a line *)
| AfterCR.      (* a CR was read: an LF still belongs to the line *)

(** The characters of a piece of a line, without the end-of-line mark. *)
Fixpoint feed (self : ReaderObj) (s : string) : result ReaderObj :=
  match s with
  | EmptyString => inr self
  | String c s' =>
      self' <-? parse_process_char self (Ch c);
      feed self' s'
  end.

(** The end of the input, as [list_go] treats it. *)
Definition finish (self : ReaderObj) : result (list (list string)) :=
  if negb (bool_decide (field self = "")) || bool_decide (state self = IN_QUOTED_FIELD)
  then inr [fields (parse_save_field self)]
  else inr [].

(** The end of a line: the mark, then either a finished record or more of
    the same record. *)
Definition end_line (self : ReaderObj)
    (k : ReaderObj -> result (list (list string))) : result (list (list string)) :=
  self' <-? parse_process_char self EOL;
  if decide (state self' = START_RECORD)
  then rows <-? k parse_reset; inr (fields self' :: rows)
  else k self'.

Fixpoint stream (self : ReaderObj) (m : mode) (s : string)
    : result (list (list string)) :=
  match s with
  | EmptyString =>
      match m with
      | LineStart => finish self
      | MidLine | AfterCR => end_line self finish
      end
  | String c s' =>
      let continue := fun self =>
        self' <-? parse_process_char self (Ch c);
        if decide (c = LF) then end_line self' (fun self'' => stream self'' LineStart s')
        else if decide (c = CR) then stream self' AfterCR s'
        else stream self' MidLine s' in
      match m with
      | AfterCR => if decide (c = LF) then continue self else end_line self continue
      | LineStart | MidLine => continue self
      end
  end.

(** Where in a line the reader stands after a character. *)
Definition mode_after (c : ascii) : mode :=
  if decide (c = LF) then LineStart else if decide (c = CR) then AfterCR else MidLine.

(** The text of a field in a record: [escape] doubles the quotes,
    [needs_quotes] says whether the writer wraps the field in quotes. *)
Definition escape (f : string) : string := (join_append_data f).1.
Definition needs_quotes (f : string) : bool := (join_append_data f).2.

Definition render (f : string) : string :=
  if needs_quotes f then String quotechar (escape f +:+ String quotechar "")
  else f.

(** The fields after the first one, each behind its comma. *)
Fixpoint tail_text (row : list string) : string :=
  match row with
  | [] => ""
  | f :: row' => String delimiter (render f) +:+ tail_text row'
  end.

(** A field the reader can hold. *)
Definition bounded (f : string) : Prop :=
  (N.of_nat (String.length f) <= field_limit)%N.

(** A reader none of whose fields is beyond the limit. *)
Definition fits (self : ReaderObj) : Prop :=
  Forall bounded (fields self) /\ bounded (field self).

End Stream.

(** ** Timestamps in the format of the log

    The text of a datetime as [%Y/%m/%d %H:%M:%S] writes it, every number
    padded with zeros to its full width. *)

Definition digit_of (n : Z) : ascii := ascii_of_nat (Z.to_nat (48 + n mod 10)).

Definition pad2 (n : Z) : string :=
  String (digit_of (n / 10)) (String (digit_of n) "").

Definition pad4 (n : Z) : string :=
  String (digit_of (n / 1000)) (String (digit_of (n / 100)) (pad2 n)).

Definition timestamp (t : Datetime.datetime) : string :=
  pad4 (Datetime.year t) +:+ "/" +:+ pad2 (Datetime.month t) +:+ "/"
  +:+ pad2 (Datetime.day t) +:+ " " +:+ pad2 (Datetime.hour t) +:+ ":"
  +:+ pad2 (Datetime.minute t) +:+ ":" +:+ pad2 (Datetime.second t).

(** A regular expression that takes these two characters and goes on. *)
Definition takes2 (r : Regex.regex) (a b : ascii) : Prop :=
  forall (R : Type) (s : string) (caps : Regex.captures)
         (k : string -> Regex.captures -> option R) (x : R),
    k s caps = Some x -> Regex.go r (String a (String b s)) caps k = Some x.

(** * Properties *)

(** ** The order of timestamps *)

Module DatetimeFacts.
Import Datetime.
#[local] Open Scope Z_scope.

Ltac by_fields :=
  unfold ltb, compare, lex; simpl;
  repeat match goal with
         | |- context [?x ?= ?y] => destruct (Z.compare_spec x y)
         end;
  intros; try discriminate; try lia.

Lemma ltb_irrefl (a : datetime) : ltb a a = false.
Proof. unfold ltb, compare. by rewrite !Z.compare_refl. Qed.

Lemma ltb_asym (a b : datetime) : ltb a b = true -> ltb b a = false.
Proof. destruct a, b; simpl; by_fields. Qed.

Lemma ltb_trans (a b c : datetime) :
  ltb a b = true -> ltb b c = true -> ltb a c = true.
Proof. destruct a, b, c; simpl; by_fields. Qed.

Lemma ltb_total (a b : datetime) :
  ltb a b = false -> ltb b a = false -> a = b.
Proof. destruct a, b; simpl; by_fields; f_equal; lia. Qed.

End DatetimeFacts.

(** ** The sort *)

Module SortedFacts.
Import Sorted.

Lemma filter_none {A} (P : A -> Prop) `{forall x, Decision (P x)} (l : list A) :
  Forall (fun x => ~ P x) l -> filter P l = [].
Proof.
  induction 1 as [|x l Hx _ IH]; [done|]. by rewrite filter_cons_False.
Qed.

Section Insertion.
Context {A K : Type} `{EqDecision K} (ltb : K -> K -> bool).
Hypothesis ltb_irrefl : forall x, ltb x x = false.
Hypothesis ltb_trans :
  forall x y z, ltb x y = true -> ltb y z = true -> ltb x z = true.
Hypothesis ltb_total :
  forall x y, ltb x y = false -> ltb y x = false -> x = y.

#[local] Abbreviation key_le := (@Sorted.key_le A K ltb).

Lemma ltb_asymmetric x y : ltb x y = true -> ltb y x = false.
Proof using ltb_irrefl ltb_trans.
  intros Hxy. destruct (ltb y x) eqn:Hyx; [|done].
  by rewrite <-(ltb_irrefl x), <-(ltb_trans x y x).
Qed.

Lemma ltb_le_trans x y z : ltb x y = true -> ltb z y = false -> ltb x z = true.
Proof using ltb_irrefl ltb_trans ltb_total.
  intros Hxy Hzy. destruct (ltb x z) eqn:Hxz; [done|].
  destruct (ltb z x) eqn:Hzx.
  - by rewrite (ltb_trans z x y) in Hzy.
  - rewrite (ltb_total x z) in Hxy by done. congruence.
Qed.

Lemma key_le_trans x y z : key_le x y -> key_le y z -> key_le x z.
Proof using ltb_irrefl ltb_trans ltb_total.
  unfold key_le. intros Hxy Hyz.
  destruct (ltb z.1 x.1) eqn:Hzx; [|done].
  by rewrite (ltb_le_trans z.1 x.1 y.1) in Hyz.
Qed.

Lemma insort_Permutation (x : K * A) l : insort ltb x l ≡ₚ x :: l.
Proof.
  induction l as [|y l IH]; simpl; [done|].
  destruct (ltb x.1 y.1); [done|]. by rewrite IH, Permutation_swap.
Qed.

Lemma insort_StronglySorted (x : K * A) l :
  StronglySorted key_le l -> StronglySorted key_le (insort ltb x l).
Proof using ltb_irrefl ltb_trans ltb_total.
  induction 1 as [|y l Hl IH Hy]; simpl.
  - repeat constructor.
  - destruct (ltb x.1 y.1) eqn:Hxy.
    + assert (key_le x y) by (by apply ltb_asymmetric).
      repeat constructor; [done..|].
      eapply Forall_impl; [exact Hy|]. intros z. by apply key_le_trans.
    + constructor; [done|]. rewrite insort_Permutation. by constructor.
Qed.

Lemma binarysort_Permutation (l acc : list (K * A)) :
  binarysort ltb acc l ≡ₚ acc ++ l.
Proof.
  revert acc. induction l as [|x l IH]; intros acc; simpl.
  - by rewrite app_nil_r.
  - rewrite IH, insort_Permutation. apply Permutation_middle.
Qed.

Lemma binarysort_StronglySorted (l acc : list (K * A)) :
  StronglySorted key_le acc ->
  StronglySorted key_le (binarysort ltb acc l).
Proof using ltb_irrefl ltb_trans ltb_total.
  revert acc. induction l as [|x l IH]; intros acc Hacc; simpl; [done|].
  by apply IH, insort_StronglySorted.
Qed.

(** An element is placed behind everything it is equal to. *)
Lemma insort_stable k (x : K * A) l :
  StronglySorted key_le l ->
  filter (fun y => y.1 = k) (insort ltb x l) = filter (fun y => y.1 = k) (l ++ [x]).
Proof using ltb_irrefl ltb_trans ltb_total.
  induction 1 as [|y l Hl IH Hy]; simpl; [done|].
  destruct (ltb x.1 y.1) eqn:Hxy.
  - change (y :: l ++ [x]) with ((y :: l) ++ [x]).
    destruct (decide (x.1 = k)) as [Hk|Hk].
    + assert (filter (fun z => z.1 = k) (y :: l) = []) as Hnone.
      { apply filter_none, Forall_forall. intros z Hz Hzk.
        assert (ltb x.1 z.1 = true) as Hlt.
        { apply elem_of_cons in Hz as [->|Hz]; [done|].
          eapply ltb_le_trans; [exact Hxy|].
          eapply Forall_forall in Hy; [exact Hy|done]. }
        rewrite Hk, Hzk, ltb_irrefl in Hlt. done. }
      rewrite (filter_app _ (y :: l) [x]), Hnone.
      rewrite !(filter_cons_True _ x) by done. by rewrite Hnone, filter_nil.
    + rewrite (filter_app _ (y :: l) [x]).
      rewrite (filter_cons_False _ x) by done.
      rewrite (filter_cons_False _ x []) by done.
      by rewrite filter_nil, app_nil_r.
  - rewrite !(filter_cons _ y), IH. by destruct (decide (y.1 = k)).
Qed.

Lemma binarysort_stable k (l acc : list (K * A)) :
  StronglySorted key_le acc ->
  filter (fun y => y.1 = k) (binarysort ltb acc l)
  = filter (fun y => y.1 = k) (acc ++ l).
Proof using ltb_irrefl ltb_trans ltb_total.
  revert acc. induction l as [|x l IH]; intros acc Hacc; simpl.
  - by rewrite app_nil_r.
  - rewrite IH by (by apply insort_StronglySorted).
    rewrite filter_app, insort_stable, <-filter_app by done.
    by rewrite <-app_assoc.
Qed.

Lemma sort_Permutation (l : list (K * A)) : sort ltb l ≡ₚ l.
Proof. apply (binarysort_Permutation l []). Qed.

Lemma sort_StronglySorted (l : list (K * A)) : StronglySorted key_le (sort ltb l).
Proof using ltb_irrefl ltb_trans ltb_total.
  apply binarysort_StronglySorted. constructor.
Qed.

Lemma sort_stable k (l : list (K * A)) :
  filter (fun y => y.1 = k) (sort ltb l) = filter (fun y => y.1 = k) l.
Proof using ltb_irrefl ltb_trans ltb_total.
  apply (binarysort_stable k l []). constructor.
Qed.

(** *** [sorted] with a key and [reverse=True] *)

Context (key : A -> result K).

#[local] Abbreviation decorated := (@Sorted.decorated A K key).

Lemma decorate_inr l kl :
  decorate key l = inr kl -> kl.*2 = l /\ decorated kl.
Proof.
  revert kl. induction l as [|a l IH]; intros kl; simpl.
  - intros [= <-]. split; [done|constructor].
  - destruct (key a) as [e|k] eqn:Hk; [done|]; simpl.
    destruct (decorate key l) as [e|kl'] eqn:Hkl; [done|]; simpl.
    intros [= <-]. destruct (IH kl' eq_refl) as [<- Hdec].
    split; [done|]. by constructor.
Qed.

Lemma decorate_total l :
  (forall a, a ∈ l -> exists k, key a = inr k) ->
  exists kl, decorate key l = inr kl.
Proof.
  induction l as [|a l IH]; intros Hl; simpl; [by eexists|].
  destruct (Hl a) as [k ->]; [by left|].
  destruct IH as [kl ->]; [|by eexists].
  intros b Hb. apply Hl. by right.
Qed.

Lemma decorated_filter k kl :
  decorated kl ->
  filter (fun a => key a = inr k) (kl.*2) = (filter (fun x => x.1 = k) kl).*2.
Proof.
  induction 1 as [|x kl Hx _ IH]; [done|].
  rewrite fmap_cons, !filter_cons, IH.
  destruct (decide (key x.2 = inr k)) as [Hk|Hk], (decide (x.1 = k)) as [Hk'|Hk'];
    try done; congruence.
Qed.

Lemma sorted_reverse_inv l out :
  sorted ltb key true l = inr out ->
  exists kl, decorate key l = inr kl /\ out = (reverse (sort ltb (reverse kl))).*2.
Proof.
  unfold sorted. destruct (decorate key l) as [e|kl]; [done|].
  intros [= <-]. by exists kl.
Qed.

Lemma sorted_total l :
  (forall a, a ∈ l -> exists k, key a = inr k) ->
  exists out, sorted ltb key true l = inr out.
Proof.
  intros [kl Hkl]%decorate_total. unfold sorted. rewrite Hkl. by eexists.
Qed.

Lemma sorted_Permutation l out :
  sorted ltb key true l = inr out -> out ≡ₚ l.
Proof.
  intros (kl & [<- _]%decorate_inr & ->)%sorted_reverse_inv.
  by rewrite reverse_Permutation, sort_Permutation, reverse_Permutation.
Qed.

(** Newest first: of two neighbours the first has the key that is not
    smaller. *)
Lemma sorted_descending l out l1 a b l2 :
  sorted ltb key true l = inr out ->
  out = l1 ++ a :: b :: l2 ->
  exists ka kb, key a = inr ka /\ key b = inr kb /\ ltb ka kb = false.
Proof using ltb_irrefl ltb_trans ltb_total.
  intros (kl & [_ Hdec]%decorate_inr & ->)%sorted_reverse_inv Hout.
  apply fmap_app_inv in Hout as (kl1 & kl' & _ & Hout & Hrev).
  symmetry in Hout.
  apply fmap_cons_inv in Hout as ([ka a'] & kl'' & [= ->] & Hout & ->).
  symmetry in Hout.
  apply fmap_cons_inv in Hout as ([kb b'] & kl2 & [= ->] & _ & ->).
  assert (decorated (kl1 ++ (ka, a') :: (kb, b') :: kl2)) as Hdec'.
  { unfold decorated. rewrite <-Hrev.
    by rewrite reverse_Permutation, sort_Permutation, reverse_Permutation. }
  apply Forall_app in Hdec' as [_ Hdec'].
  apply Forall_cons in Hdec' as [Ha Hdec'].
  apply Forall_cons in Hdec' as [Hb _].
  exists ka, kb. repeat split; [done..|].
  pose proof (sort_StronglySorted (reverse kl)) as Hsorted.
  apply (f_equal reverse) in Hrev. rewrite reverse_involutive in Hrev.
  rewrite Hrev, reverse_app, !reverse_cons, <-!app_assoc in Hsorted.
  apply StronglySorted_app_1_r in Hsorted.
  apply (StronglySorted_app_1_elem_of _ _ _ (kb, b') (ka, a')) in Hsorted;
    [done|by left|by left].
Qed.

(** Equal keys keep the order they came in. *)
Lemma sorted_stable l out k :
  sorted ltb key true l = inr out ->
  filter (fun a => key a = inr k) out = filter (fun a => key a = inr k) l.
Proof using ltb_irrefl ltb_trans ltb_total.
  intros (kl & [<- Hdec]%decorate_inr & ->)%sorted_reverse_inv.
  rewrite !decorated_filter; [|done|].
  - by rewrite filter_reverse, sort_stable, filter_reverse, reverse_involutive.
  - unfold decorated.
    by rewrite reverse_Permutation, sort_Permutation, reverse_Permutation.
Qed.

End Insertion.
End SortedFacts.

(** ** The loop over the rows *)

Lemma split_head (sep s : string) :
  getitem0 (Str.split sep s) = inr (match Str.find sep s with
                                    | Some i => Str.take i s
                                    | None => s
                                    end).
Proof.
  unfold Str.split. destruct s as [|c s].
  - by destruct sep.
  - cbn [String.length Str.split_go].
    by destruct (Str.find sep (String c s)).
Qed.

Lemma field_raises (name : string) (default : Z) found (e : exn) :
  Strptime.field name default found = inl e -> e = ValueError.
Proof.
  unfold Strptime.field, Strptime.int. intros H.
  repeat case_match; by simplify_eq.
Qed.

Lemma check_date_fields_raises (y m d : Z) (e : exn) :
  Datetime.check_date_fields y m d = inl e -> e = ValueError.
Proof.
  unfold Datetime.check_date_fields. intros H.
  repeat case_match; by simplify_eq.
Qed.

Lemma check_time_fields_raises (h mi s : Z) (e : exn) :
  Datetime.check_time_fields h mi s = inl e -> e = ValueError.
Proof.
  unfold Datetime.check_time_fields. intros H.
  repeat case_match; by simplify_eq.
Qed.

Lemma datetime_new_raises (y m d h mi s : Z) (e : exn) :
  Datetime.new y m d h mi s = inl e -> e = ValueError.
Proof.
  unfold Datetime.new.
  destruct (Datetime.check_date_fields y m d) eqn:Hd; cbn [rbind].
  { intros [= <-]. by eapply check_date_fields_raises. }
  destruct (Datetime.check_time_fields h mi s) eqn:Ht; cbn [rbind]; [|done].
  intros [= <-]. by eapply check_time_fields_raises.
Qed.

Lemma strptime_raises (s : string) (e : exn) :
  Strptime.strptime s = inl e -> e = ValueError.
Proof.
  unfold Strptime.strptime.
  destruct (Regex.re_match _ s) as [[found [|c rest]]|]; [|by intros [= <-]..].
  repeat match goal with
         | |- rbind ?x _ = _ -> _ =>
             let H := fresh in destruct x eqn:H; cbn [rbind];
             [intros [= <-];
              first [by eapply field_raises | by eapply check_date_fields_raises]|]
         end.
  apply datetime_new_raises.
Qed.

Lemma check_row_cons (row0 : string) (row : list string) :
  check_row (row0 :: row) =
    if decide (row0 = "") then inr false
    else if Str.startswith "npm " row0 then inr false
    else _ <-? Strptime.strptime (date_part row0); inr true.
Proof.
  unfold check_row, date_part. simpl getitem0. cbn [rbind].
  rewrite split_head. destruct row0; [done|]. by rewrite decide_False.
Qed.

Lemma sort_key_cons (row0 : string) (row : list string) :
  sort_key (row0 :: row) = Strptime.strptime (date_part row0).
Proof. unfold sort_key, date_part. simpl. by rewrite split_head. Qed.

(** What the loop accepts. *)
Lemma check_row_true (row : list string) :
  check_row row = inr true <->
  exists row0 t, head row = Some row0 /\ row0 <> "" /\
    Str.startswith "npm " row0 = false /\
    Strptime.strptime (date_part row0) = inr t.
Proof.
  destruct row as [|row0 row].
  - split; [done|]. by intros (? & ? & [=] & _).
  - rewrite check_row_cons. split.
    + intros H. exists row0. repeat case_match; simplify_eq/=.
      destruct (Strptime.strptime (date_part row0)) as [|t] eqn:Ht; [done|].
      by exists t.
    + intros (? & t & [= <-] & Hne & -> & Ht).
      by rewrite decide_False, Ht.
Qed.

Lemma check_row_raises (row : list string) (e : exn) :
  check_row row = inl e -> e = ValueError.
Proof.
  destruct row as [|row0 row]; [done|]. rewrite check_row_cons.
  intros H. repeat case_match; simplify_eq/=.
  destruct (Strptime.strptime (date_part row0)) eqn:Ht; simplify_eq/=.
  by eapply strptime_raises.
Qed.

Lemma check_row_sort_key (row : list string) :
  check_row row = inr true -> exists t, sort_key row = inr t.
Proof.
  intros (row0 & t & Hhd & _ & _ & Ht)%check_row_true.
  destruct row; simplify_eq/=. exists t. by rewrite sort_key_cons.
Qed.

Lemma is_Exception_true (e : exn) : is_Exception e = true.
Proof. by destruct e. Qed.

Lemma filter_loop_spec (rows sorted_rows : list (list string)) (w : world) :
  filter_loop rows sorted_rows w =
    (inr (sorted_rows ++ kept rows),
     World (files w) (stdout w ++ skipped rows) (faults w)).
Proof.
  revert sorted_rows w. induction rows as [|row rows IH]; intros acc w.
  - destruct w. unfold kept, skipped. simpl. unfold ret. by rewrite !app_nil_r.
  - cbn [filter_loop]. unfold bind at 1. unfold try_except, bind, lift, ret, print.
    unfold kept, skipped, row_raises in *. rewrite !filter_cons.
    destruct (check_row row) as [e|[|]] eqn:Hrow; simpl.
    + rewrite is_Exception_true, IH. simpl. by rewrite <-app_assoc.
    + rewrite IH. by rewrite <-app_assoc.
    + by rewrite IH.
Qed.

(** ** Runs of [create_sorted_copy] *)

Ltac run_cases :=
  unfold create_sorted_copy, try_except;
  unfold bind at 1; unfold os_path_exists;
  simpl;
  match goal with
  | Hsrc : _ !! _ = _ |- _ => rewrite Hsrc; simpl
  end;
  unfold shutil_copy2, read_text, write_text, environment, bind, lift, print, ret;
  intros;
  repeat (case_match; simplify_eq/=);
  try rewrite is_Exception_true in *; simplify_eq/=;
  try rewrite filter_loop_spec in *; simplify_eq/=;
  try rewrite lookup_insert_eq in *; simplify_eq/=.

Lemma create_sorted_copy_missing (csv_path : string) (output_path : option string)
    (w : world) :
  files w !! csv_path = None ->
  create_sorted_copy csv_path output_path w =
    (inr None, World (files w) (stdout w ++ [msg_not_found csv_path]) (faults w)).
Proof.
  intros Hsrc. unfold create_sorted_copy, try_except.
  unfold bind at 1. unfold os_path_exists. by rewrite Hsrc.
Qed.

Lemma create_sorted_copy_success (csv_path : string) (output_path : option string)
    (w w' : world) (p : string) :
  create_sorted_copy csv_path output_path w = (inr (Some p), w') ->
  exists data header reader rows body,
    p = destination csv_path output_path /\
    csv_path <> p /\
    files w !! csv_path = Some data /\
    Csv.next (Csv.readlines data) = inr (header, reader) /\
    Csv.list_reader reader = inr rows /\
    Sorted.sorted Datetime.ltb sort_key true (kept rows) = inr body /\
    files w' = <[p := Csv.writerow header +:+ Csv.writerows body]> (files w) /\
    stdout w' = stdout w ++ skipped rows ++ [msg_success (length body) p] /\
    (forall i e, i < 3 -> faults w !! i <> Some (Some e)).
Proof.
  unfold destination.
  destruct (files w !! csv_path) as [data|] eqn:Hsrc.
  2: { by rewrite create_sorted_copy_missing. }
  revert w' p. run_cases.
  all: eexists _, _, _, _, _; repeat split; eauto;
    try (by rewrite insert_insert_eq); try (by rewrite app_assoc).
  all: intros i e Hi;
    repeat match goal with
           | H : faults _ = _ |- _ => rewrite H; clear H
           end;
    destruct i as [|[|[|i]]]; simpl; try done; lia.
Qed.

Lemma create_sorted_copy_returns (csv_path : string) (output_path : option string)
    (w : world) :
  exists r w', create_sorted_copy csv_path output_path w = (inr r, w').
Proof.
  destruct (files w !! csv_path) as [data|] eqn:Hsrc.
  2: { rewrite create_sorted_copy_missing by done. by eexists _, _. }
  destruct (create_sorted_copy csv_path output_path w) as [[e|r] w'] eqn:Hrun;
    [exfalso|by eexists _, _].
  revert Hrun. revert e w'. run_cases.
Qed.

Lemma create_sorted_copy_failure (csv_path : string) (output_path : option string)
    (w w' : world) :
  create_sorted_copy csv_path output_path w = (inr None, w') ->
  (exists pre d, stdout w' = stdout w ++ pre ++ [d] /\ diagnostic d) /\
  (files w' = files w \/
   exists data, files w !! csv_path = Some data /\
     csv_path <> destination csv_path output_path /\
     files w' = <[destination csv_path output_path := data]> (files w)).
Proof.
  unfold destination.
  destruct (files w !! csv_path) as [data|] eqn:Hsrc.
  2: { rewrite create_sorted_copy_missing by done. intros [= <-]; simpl.
       split; [by exists [], (msg_not_found csv_path)|by left]. }
  revert w'. run_cases.
  all: split; [|by eauto].
  all: first [ by eexists [], _ | by eexists _, _; rewrite <-app_assoc ].
Qed.

Lemma create_sorted_copy_quiet (csv_path : string) (output_path : option string)
    (w : world) :
  faults w = [] ->
  let w' := (create_sorted_copy csv_path output_path w).2 in
  faults w' = [] /\
  files w' =
    match files w !! csv_path with
    | None => files w
    | Some data =>
        if decide (csv_path = destination csv_path output_path) then files w
        else <[destination csv_path output_path := written data]> (files w)
    end.
Proof.
  intros Hq. unfold destination.
  destruct (files w !! csv_path) as [data|] eqn:Hsrc.
  2: { by rewrite create_sorted_copy_missing. }
  destruct w as [fs out script]; simpl in *; subst script.
  destruct (create_sorted_copy _ _ _) as [r w'] eqn:Hrun.
  revert Hrun. revert r w'. run_cases.
  all: unfold written, sorted_text.
  all: repeat match goal with
              | H : _ = inr _ |- _ => rewrite H; clear H; simpl
              | H : _ = inl _ |- _ => rewrite H; clear H; simpl
              end.
  all: by rewrite ?insert_insert_eq.
Qed.

(** ** Strings *)

Module StrFacts.

Lemma app_nil_r (s : string) : s +:+ "" = s.
Proof. induction s as [|c s IH]; simpl; congruence. Qed.

Lemma app_assoc (s1 s2 s3 : string) : (s1 +:+ s2) +:+ s3 = s1 +:+ s2 +:+ s3.
Proof. induction s1 as [|c s1 IH]; simpl; congruence. Qed.

Lemma length_app (s1 s2 : string) :
  String.length (s1 +:+ s2) = String.length s1 + String.length s2.
Proof. induction s1 as [|c s1 IH]; simpl; congruence. Qed.

Lemma take_app (s1 s2 : string) : Str.take (String.length s1) (s1 +:+ s2) = s1.
Proof. induction s1 as [|c s1 IH]; simpl; [by destruct s2|by rewrite IH]. Qed.

Lemma drop_app (s1 s2 : string) : Str.drop (String.length s1) (s1 +:+ s2) = s2.
Proof. induction s1 as [|c s1 IH]; simpl; [by destruct s2|by rewrite IH]. Qed.

Lemma mem_app (c : ascii) (s1 s2 : string) :
  Str.mem c (s1 +:+ s2) = Str.mem c s1 || Str.mem c s2.
Proof. induction s1 as [|a s1 IH]; simpl; [done|]. by case_decide. Qed.

Lemma length_drop (n : nat) (s : string) :
  String.length (Str.drop n s) = String.length s - n.
Proof.
  revert s. induction n as [|n IH]; intros [|c s]; simpl; done.
Qed.

(** The rounds that [Str.split] allows are enough: more rounds give the
    same pieces. *)
Lemma split_go_enough (sep s : string) (fuel1 fuel2 : nat) :
  sep <> "" -> String.length s <= fuel1 -> String.length s <= fuel2 ->
  Str.split_go fuel1 sep s = Str.split_go fuel2 sep s.
Proof.
  intros Hsep. revert s fuel2.
  assert (forall fuel, Str.split_go fuel sep "" = [""]) as Hempty.
  { intros [|fuel]; [done|]. simpl. by destruct sep. }
  induction fuel1 as [|fuel1 IH]; intros s fuel2 H1 H2.
  - destruct s; [|simpl in H1; lia]. by rewrite !Hempty.
  - destruct fuel2 as [|fuel2].
    { destruct s; [|simpl in H2; lia]. by rewrite !Hempty. }
    cbn [Str.split_go]. destruct (Str.find sep s) as [i|]; [|done].
    f_equal. assert (0 < String.length sep) by (destruct sep; [done|simpl; lia]).
    apply IH; rewrite length_drop; lia.
Qed.

End StrFacts.

(** ** A header line without quotes *)

Module CsvFacts.
Import Csv.

Lemma first_line_plain (s : string) :
  Str.mem quotechar (first_line s) = false -> plain (first_line s) = true.
Proof.
  induction s as [|c s IH]; simpl; [done|].
  destruct (is_newline c) eqn:Hc; simpl; [done|].
  rewrite Hc. case_decide; [done|]. intros ?%IH.
  by rewrite bool_decide_false by done.
Qed.

Lemma first_line_app (l t rest : string) :
  plain l = true -> line_end t -> t <> "" ->
  first_line (l +:+ t +:+ rest) = l.
Proof.
  intros Hl Ht Hne. induction l as [|c l IH]; simpl in *.
  - by destruct Ht as [->|[->|[->| ->]]].
  - apply andb_prop in Hl as [[Hc _]%andb_prop Hl].
    apply negb_true_iff in Hc. rewrite Hc. f_equal. by apply IH.
Qed.

Lemma readlines_go_first (cur s : string) :
  cur <> "" \/ s <> "" ->
  exists t rest, line_end t /\
    readlines_go cur s = (cur +:+ first_line s +:+ t) :: rest /\
    cur +:+ first_line s +:+ t <> "".
Proof.
  revert cur. induction s as [|c s IH]; intros cur Hne.
  - destruct Hne as [Hne|]; [|done]. exists "", []. split; [by left|].
    simpl. rewrite StrFacts.app_nil_r. by destruct cur.
  - cbn [readlines_go first_line]. unfold is_newline.
    destruct (decide (c = LF)) as [->|Hlf].
    { eexists (String LF ""), _. split; [by right; left|].
      split; [done|]. by destruct cur. }
    rewrite (bool_decide_false (c = LF)) by done.
    destruct (decide (c = CR)) as [->|Hcr].
    { rewrite bool_decide_true by done. cbn [orb].
      destruct s as [|c' s].
      - eexists (String CR ""), _. split; [by right; right; left|].
        split; [done|]. by destruct cur.
      - destruct (decide (c' = LF)) as [->|Hlf'].
        + eexists lineterminator, _. split; [by right; right; right|].
          split; [done|]. by destruct cur.
        + eexists (String CR ""), _. split; [by right; right; left|].
          split; [done|]. by destruct cur. }
    rewrite bool_decide_false by done. cbn [orb].
    destruct (IH (cur +:+ String c "")) as (t & rest & Ht & -> & Hline).
    { left. by destruct cur. }
    exists t, rest. split; [done|].
    rewrite StrFacts.app_assoc in Hline. by rewrite StrFacts.app_assoc.
Qed.

(** The parser on the plain rest of a line and the line's ending. *)
Lemma parse_line_plain (l t : string) (fs : list string) (f : string)
    (st : ParserState) (self : ReaderObj) :
  plain l = true -> line_end t ->
  st = START_FIELD \/ st = IN_FIELD ->
  parse_line (Reader fs f st) (l +:+ t) = inr self ->
  self = Reader (fs ++ fields_of f l) "" START_RECORD.
Proof.
  intros Hl Ht. revert fs f st. induction l as [|c l IH]; intros fs f st Hst.
  - destruct Ht as [->|[->|[->| ->]]], Hst as [-> | ->]; simpl; by intros [= <-].
  - simpl in Hl. apply andb_prop in Hl as [[Hc Hq%negb_true_iff]%andb_prop Hl].
    apply negb_true_iff in Hc. apply bool_decide_eq_false in Hq.
    cbn [String.append parse_line fields_of].
    assert (parse_process_char (Reader fs f st) (Ch c) =
              if decide (c = delimiter) then inr (Reader (fs ++ [f]) "" START_FIELD)
              else self' <-? parse_add_char (Reader fs f st) c;
                   inr (set_state IN_FIELD self')) as ->.
    { destruct Hst as [-> | ->]; unfold parse_process_char, start_field; simpl;
        rewrite Hc, ?decide_False by done; case_decide; try done.
      all: unfold parse_add_char; simpl; by case_match. }
    case_decide; simpl.
    + intros Hparse. apply IH in Hparse; [|done|by left].
      by rewrite Hparse, <-(assoc_L (++)).
    + unfold parse_add_char; simpl. case_match; [done|]. simpl.
      intros Hparse. apply IH in Hparse; [done..|by right].
Qed.

Lemma parse_line_first (l t : string) (self : ReaderObj) :
  plain l = true -> line_end t -> l +:+ t <> "" ->
  parse_line parse_reset (l +:+ t) = inr self ->
  self = Reader (if l is "" then [] else fields_of "" l) "" START_RECORD.
Proof.
  intros Hl Ht Hne. destruct l as [|c l].
  - destruct Ht as [->|[->|[->| ->]]]; simpl; [done|by intros [= <-]..].
  - intros Hparse. apply (parse_line_plain (String c l) t [] "" START_FIELD);
      [done..|by left|].
    simpl in Hl. apply andb_prop in Hl as [[Hc%negb_true_iff _]%andb_prop _].
    assert (parse_process_char parse_reset (Ch c)
            = parse_process_char (Reader [] "" START_FIELD) (Ch c)) as Hstep.
    { unfold parse_process_char, parse_reset. simpl. by rewrite Hc. }
    cbn [String.append parse_line] in *. by rewrite <-Hstep.
Qed.

Lemma join_append_data_plain (f : string) :
  plain f = true -> no_delimiter f = true -> join_append_data f = (f, false).
Proof.
  induction f as [|c f IH]; simpl; [done|].
  intros [[Hc Hq%negb_true_iff]%andb_prop Hf]%andb_prop
         [Hd%negb_true_iff Hf']%andb_prop.
  rewrite IH by done. apply bool_decide_eq_false in Hq.
  rewrite decide_False, Hd by done. simpl.
  unfold is_newline in Hc. apply negb_true_iff, orb_false_elim in Hc as [Hlf Hcr].
  apply bool_decide_eq_false in Hlf, Hcr.
  by rewrite !decide_False by done.
Qed.

Lemma plain_snoc (f : string) (c : ascii) :
  plain (f +:+ String c "") = plain f && plain (String c "").
Proof.
  induction f as [|a f IH]; simpl; [done|]. rewrite IH. simpl.
  by destruct (is_newline a), (bool_decide (a = quotechar)), (plain f).
Qed.

Lemma no_delimiter_snoc (f : string) (c : ascii) :
  no_delimiter (f +:+ String c "") = no_delimiter f && negb (bool_decide (c = delimiter)).
Proof.
  induction f as [|a f IH]; simpl; [by rewrite andb_true_r|].
  rewrite IH. by destruct (bool_decide (a = delimiter)), (no_delimiter f).
Qed.

Lemma join_fields_plain (l : string) (rec : string) (n : nat) (cur : string) :
  plain l = true -> plain cur = true -> no_delimiter cur = true ->
  join_fields rec n (fields_of cur l)
  = rec +:+ (if n is 0 then "" else String delimiter "") +:+ cur +:+ l.
Proof.
  revert rec n cur. induction l as [|c l IH]; intros rec n cur Hl Hcur Hnd.
  - simpl. unfold join_append. rewrite join_append_data_plain by done. simpl.
    by rewrite StrFacts.app_nil_r.
  - simpl in Hl. apply andb_prop in Hl as [Hc Hl]. cbn [fields_of].
    destruct (decide (c = delimiter)) as [Hd|Hd]; cbn [join_fields].
    + rewrite IH by done. unfold join_append.
      rewrite join_append_data_plain by done. simpl.
      rewrite !StrFacts.app_assoc. by subst c.
    + rewrite IH; [|done| |].
      * by rewrite !StrFacts.app_assoc.
      * rewrite plain_snoc, Hcur. simpl. by rewrite Hc.
      * rewrite no_delimiter_snoc, Hnd. by rewrite bool_decide_false.
Qed.

Lemma writerow_plain (l : string) :
  plain l = true ->
  writerow (if l is "" then [] else fields_of "" l) = l +:+ lineterminator.
Proof.
  intros Hl. unfold writerow. destruct l as [|c l]; [by vm_compute|].
  rewrite join_fields_plain by done. simpl.
  by rewrite andb_false_r.
Qed.

(** A table that begins with a plain line: [next] hands out the fields
    of that line, and [writerow] writes the line back. *)
Lemma next_plain_header (data : string) (header reader : list string) :
  Str.mem quotechar (first_line data) = false ->
  next (readlines data) = inr (header, reader) ->
  writerow header = first_line data +:+ lineterminator.
Proof.
  intros Hplain%first_line_plain. unfold next, readlines.
  destruct data as [|c data]; [done|].
  destruct (readlines_go_first "" (String c data)) as (t & rest & Ht & -> & Hline);
    [by right|].
  cbn [String.append iternext_go] in *.
  destruct (parse_line parse_reset _) as [e|self] eqn:Hparse; [done|].
  apply parse_line_first in Hparse; [|done..].
  subst self. simpl. intros [= <- <-]. by apply writerow_plain.
Qed.

End CsvFacts.

(** ** Paths *)

Module PosixpathFacts.
Import Posixpath.

Lemma rfind_None (c : ascii) (s : string) :
  Str.mem c s = false -> rfind c s = None.
Proof.
  induction s as [|a s IH]; simpl; [done|].
  case_decide; [done|]. by intros ->%IH.
Qed.

Lemma rfind_app (c : ascii) (x y : string) :
  rfind c (x +:+ y) = match rfind c y with
                      | Some i => Some (String.length x + i)
                      | None => rfind c x
                      end.
Proof.
  induction x as [|a x IH]; simpl; [by destruct (rfind c y)|].
  rewrite IH. by destruct (rfind c y).
Qed.

Lemma rfind_last (c : ascii) (x y : string) :
  Str.mem c y = false -> rfind c (x +:+ String c y) = Some (String.length x).
Proof.
  intros Hy. rewrite rfind_app. simpl. rewrite (rfind_None c y Hy).
  rewrite decide_True by done. f_equal. lia.
Qed.

Lemma after_last_sep_None (b : string) :
  Str.mem sep b = false -> after_last_sep b = 0.
Proof. intros Hb. unfold after_last_sep. by rewrite rfind_None. Qed.

Lemma after_last_sep_app (d b : string) :
  Str.mem sep b = false -> after_last_sep (d +:+ String sep b) = S (String.length d).
Proof. intros Hb. unfold after_last_sep. by rewrite rfind_last. Qed.

Lemma snoc_app (d : string) (c : ascii) (b : string) :
  d +:+ String c b = (d +:+ String c "") +:+ b.
Proof. by rewrite StrFacts.app_assoc. Qed.

Lemma length_snoc (d : string) (c : ascii) :
  String.length (d +:+ String c "") = S (String.length d).
Proof. rewrite StrFacts.length_app. simpl. lia. Qed.

Lemma all_seps_endswith (d : string) :
  d <> "" -> all_seps d = true -> endswith_sep d = true.
Proof.
  induction d as [|a d IH]; [done|]. intros _. simpl.
  intros [Ha Hd]%andb_prop. destruct d as [|a' d]; [done|]. by apply IH.
Qed.

Lemma all_seps_app (x y : string) :
  all_seps (x +:+ y) = all_seps x && all_seps y.
Proof.
  induction x as [|a x IH]; simpl; [done|]. by rewrite IH, andb_assoc.
Qed.

Lemma rstrip_sep_snoc (d : string) :
  endswith_sep d = false -> rstrip_sep (d +:+ String sep "") = d.
Proof.
  induction d as [|a d IH]; [done|]. intros Hd.
  cbn [String.append rstrip_sep]. destruct d as [|a' d].
  - simpl in *. apply bool_decide_eq_false in Hd. by rewrite decide_False.
  - rewrite IH by done. done.
Qed.

Lemma dirname_app (d b : string) :
  d <> "" -> endswith_sep d = false -> Str.mem sep b = false ->
  dirname (d +:+ String sep b) = d.
Proof.
  intros Hne Hd Hb. unfold dirname. rewrite after_last_sep_app by done.
  rewrite snoc_app, <-(length_snoc d sep), StrFacts.take_app.
  rewrite all_seps_app.
  assert (all_seps d = false) as ->.
  { destruct (all_seps d) eqn:Hall; [|done].
    by rewrite all_seps_endswith in Hd. }
  rewrite bool_decide_false by (by destruct d). simpl.
  by apply rstrip_sep_snoc.
Qed.

Lemma basename_app (d b : string) :
  Str.mem sep b = false -> basename (d +:+ String sep b) = b.
Proof.
  intros Hb. unfold basename. rewrite after_last_sep_app by done.
  by rewrite snoc_app, <-(length_snoc d sep), StrFacts.drop_app.
Qed.

Lemma char_at_app (pre : string) (c : ascii) (s : string) :
  char_at (String.length pre) (pre +:+ String c s) = String c "".
Proof. unfold char_at. rewrite StrFacts.drop_app. by destruct s. Qed.

Lemma splitext_loop_found (name pre rest : string) (dotIndex : nat) :
  all_dots name = false ->
  splitext_loop (String.length name) (String.length pre) dotIndex
    (pre +:+ name +:+ rest)
  = (Str.take dotIndex (pre +:+ name +:+ rest),
     Str.drop dotIndex (pre +:+ name +:+ rest)).
Proof.
  revert pre. induction name as [|c name IH]; intros pre Hname; [done|].
  cbn [String.length splitext_loop]. cbn [String.append].
  rewrite char_at_app. simpl in Hname.
  destruct (decide (c = extsep)) as [->|Hc].
  - rewrite bool_decide_true by done. cbn [negb].
    rewrite bool_decide_true in Hname by done.
    rewrite (snoc_app pre), <-(length_snoc pre extsep). by apply IH.
  - rewrite bool_decide_false; [done|]. congruence.
Qed.

Lemma splitext_app (name ext : string) :
  Str.mem sep name = false -> Str.mem sep ext = false ->
  Str.mem extsep ext = false -> all_dots name = false ->
  splitext (name +:+ String extsep ext) = (name, String extsep ext).
Proof.
  intros Hname Hext Hdot Hdots. unfold splitext.
  rewrite rfind_last by done. rewrite after_last_sep_None.
  2: { rewrite StrFacts.mem_app, Hname. simpl. exact Hext. }
  simpl. rewrite Nat.sub_0_r.
  pose proof (splitext_loop_found name "" (String extsep ext)
                (String.length name) Hdots) as Hloop.
  simpl in Hloop. rewrite Hloop.
  by rewrite StrFacts.take_app, StrFacts.drop_app.
Qed.

Lemma all_dots_startswith (name rest : string) :
  Str.mem sep name = false -> all_dots name = false ->
  Str.startswith (String sep "") (name +:+ rest) = false.
Proof.
  destruct name as [|c name]; [done|]. simpl.
  case_decide; [done|]. intros _ _. by rewrite decide_False.
Qed.

End PosixpathFacts.

(** ** The claims *)

(** C1, as stated, fails: the record [2025/05/04 09:00:00,B] has no [" ("]
    in its first field, so the specification's test rejects it, and yet it
    is an input row that the run writes to the output body. *)
Lemma filter_keeps_bare_timestamp :
  let row := ["2025/05/04 09:00:00"; "B"] in
  let run := create_sorted_copy "scan.csv" None (Sample.world_with "scan.csv" Sample.bare_log) in
  Csv.list_reader (Csv.readlines Sample.bare_log) = inr [["CREATED"; "VAL"]; row] /\
  run.1 = inr (Some "scan_sorted.csv") /\
  files run.2 !! "scan_sorted.csv"
    = Some (Csv.writerow ["CREATED"; "VAL"] +:+ Csv.writerows [row]) /\
  ~ spec_accepts row.
Proof.
  split; [|split; [|split]]; [by vm_compute..|].
  intros (row0 & t & [= <-] & _ & _ & Hc & _). by vm_compute in Hc.
Qed.

(** C1 (amended): in a run that succeeds, a row of the input is in the
    output body if and only if its first field exists, is not empty, does
    not start with ["npm "], and its part before the first [" ("] (the
    whole field when it has no [" ("]) parses under [%Y/%m/%d %H:%M:%S]. *)
Theorem filter_correctness (csv_path : string) (output_path : option string)
    (w w' : world) (p : string) :
  create_sorted_copy csv_path output_path w = (inr (Some p), w') ->
  exists data header reader rows body,
    files w !! csv_path = Some data /\
    Csv.next (Csv.readlines data) = inr (header, reader) /\
    Csv.list_reader reader = inr rows /\
    files w' !! p = Some (Csv.writerow header +:+ Csv.writerows body) /\
    forall row, row ∈ body <-> row ∈ rows /\ accepts row.
Proof.
  intros (data & header & reader & rows & body & -> & _ & Hsrc & Hnext & Hrows
          & Hsort & Hfiles & _)%create_sorted_copy_success.
  exists data, header, reader, rows, body.
  split; [done|]. split; [done|]. split; [done|]. split.
  - by rewrite Hfiles, lookup_insert_eq.
  - intros row. apply SortedFacts.sorted_Permutation in Hsort.
    rewrite Hsort. unfold kept, accepts.
    by rewrite list_elem_of_filter, check_row_true, (comm and).
Qed.

Lemma filter_correctness_witness :
  exists data header reader rows body,
    files Sample.w !! "/data/scan.csv" = Some data /\
    Csv.next (Csv.readlines data) = inr (header, reader) /\
    Csv.list_reader reader = inr rows /\
    files (create_sorted_copy "/data/scan.csv" None Sample.w).2 !! "/data/scan_sorted.csv"
      = Some (Csv.writerow header +:+ Csv.writerows body) /\
    forall row, row ∈ body <-> row ∈ rows /\ accepts row.
Proof.
  apply (filter_correctness "/data/scan.csv" None Sample.w).
  by vm_compute.
Defined.

(** C2: in a run that succeeds, the records of the output body are the
    accepted rows of the input, every record has a timestamp that is not
    before the timestamp of the record after it, and the records of one
    timestamp stand in the order in which the input has them. *)
Theorem ordering (csv_path : string) (output_path : option string)
    (w w' : world) (p : string) :
  create_sorted_copy csv_path output_path w = (inr (Some p), w') ->
  exists data header reader rows body,
    files w !! csv_path = Some data /\
    Csv.next (Csv.readlines data) = inr (header, reader) /\
    Csv.list_reader reader = inr rows /\
    files w' !! p = Some (Csv.writerow header +:+ Csv.writerows body) /\
    (forall before a b after, body = before ++ a :: b :: after ->
       exists ta tb, sort_key a = inr ta /\ sort_key b = inr tb /\
         Datetime.leb tb ta = true) /\
    (forall t, filter (fun row => sort_key row = inr t) body
               = filter (fun row => sort_key row = inr t) (kept rows)).
Proof.
  intros (data & header & reader & rows & body & -> & _ & Hsrc & Hnext & Hrows
          & Hsort & Hfiles & _)%create_sorted_copy_success.
  exists data, header, reader, rows, body.
  split; [done|]. split; [done|]. split; [done|]. split; [|split].
  - by rewrite Hfiles, lookup_insert_eq.
  - intros before a b after Hbody.
    destruct (SortedFacts.sorted_descending Datetime.ltb
                DatetimeFacts.ltb_irrefl DatetimeFacts.ltb_trans
                DatetimeFacts.ltb_total sort_key _ _ _ _ _ _ Hsort Hbody)
      as (ta & tb & Ha & Hb & Hlt).
    exists ta, tb. unfold Datetime.leb. by rewrite Hlt.
  - intros t.
    apply (SortedFacts.sorted_stable Datetime.ltb
             DatetimeFacts.ltb_irrefl DatetimeFacts.ltb_trans
             DatetimeFacts.ltb_total sort_key _ _ _ Hsort).
Qed.

Lemma ordering_witness :
  exists data header reader rows body,
    files Sample.w !! "/data/scan.csv" = Some data /\
    Csv.next (Csv.readlines data) = inr (header, reader) /\
    Csv.list_reader reader = inr rows /\
    files (create_sorted_copy "/data/scan.csv" None Sample.w).2 !! "/data/scan_sorted.csv"
      = Some (Csv.writerow header +:+ Csv.writerows body) /\
    (forall before a b after, body = before ++ a :: b :: after ->
       exists ta tb, sort_key a = inr ta /\ sort_key b = inr tb /\
         Datetime.leb tb ta = true) /\
    (forall t, filter (fun row => sort_key row = inr t) body
               = filter (fun row => sort_key row = inr t) (kept rows)).
Proof.
  apply (ordering "/data/scan.csv" None Sample.w).
  by vm_compute.
Defined.

(** C4: when the source path names no file, the run prints the not-found
    message and nothing else, returns [None], and leaves every file as it
    was: no destination is created or changed. *)
Theorem missing_source_safety (csv_path : string) (output_path : option string)
    (w : world) :
  files w !! csv_path = None ->
  create_sorted_copy csv_path output_path w =
    (inr None, World (files w) (stdout w ++ [msg_not_found csv_path]) (faults w)).
Proof. apply create_sorted_copy_missing. Qed.

Lemma missing_source_safety_witness :
  create_sorted_copy "missing.csv" None Sample.w =
    (inr None, World (files Sample.w) [msg_not_found "missing.csv"] []).
Proof.
  apply (missing_source_safety "missing.csv" None Sample.w).
  by vm_compute.
Defined.

(** C5: no exception leaves [create_sorted_copy].  Every run returns; a
    run that returns [None] has printed a diagnostic last; a call that the
    environment makes fail (the copy, the opening for reading, the opening
    for writing) and a table that [csv] cannot read both end in [None];
    and a row on which the check raises is skipped, the rows around it
    being treated as if it were not there. *)
Theorem failures_are_contained :
  (forall csv_path output_path w,
     exists r w', create_sorted_copy csv_path output_path w = (inr r, w') /\
       (r = None ->
        exists before d, stdout w' = stdout w ++ before ++ [d] /\ diagnostic d)) /\
  (forall csv_path output_path w i e,
     i < 3 -> faults w !! i = Some (Some e) ->
     (create_sorted_copy csv_path output_path w).1 = inr None) /\
  (forall csv_path output_path w data e,
     files w !! csv_path = Some data ->
     (header_and_reader <-? Csv.next (Csv.readlines data);
      Csv.list_reader header_and_reader.2) = inl e ->
     (create_sorted_copy csv_path output_path w).1 = inr None) /\
  (forall rows1 row rows2 sorted_rows w e,
     check_row row = inl e ->
     exists w', filter_loop (rows1 ++ row :: rows2) sorted_rows w
                = (inr (sorted_rows ++ kept rows1 ++ kept rows2), w')).
Proof.
  split; [|split; [|split]].
  - intros csv_path output_path w.
    destruct (create_sorted_copy_returns csv_path output_path w) as (r & w' & Hrun).
    exists r, w'. split; [done|]. intros ->.
    by apply create_sorted_copy_failure in Hrun as [? _].
  - intros csv_path output_path w i e Hi Hfault.
    destruct (create_sorted_copy_returns csv_path output_path w) as ([p|] & w' & Hrun);
      rewrite Hrun; [|done].
    apply create_sorted_copy_success in Hrun
      as (? & ? & ? & ? & ? & _ & _ & _ & _ & _ & _ & _ & _ & Hquiet).
    by destruct (Hquiet i e Hi).
  - intros csv_path output_path w data e Hsrc Hread.
    destruct (create_sorted_copy_returns csv_path output_path w) as ([p|] & w' & Hrun);
      rewrite Hrun; [|done].
    apply create_sorted_copy_success in Hrun
      as (? & ? & ? & ? & ? & _ & _ & Hsrc' & Hnext & Hrows & _).
    rewrite Hsrc in Hsrc'. injection Hsrc' as <-.
    rewrite Hnext in Hread. simpl in Hread. congruence.
  - intros rows1 row rows2 sorted_rows w e Hrow. rewrite filter_loop_spec.
    eexists. do 2 f_equal. unfold kept.
    rewrite filter_app, filter_cons_False; [done|]. by rewrite Hrow.
Qed.

(** C7: with an environment that lets every call through, a second run
    on the same paths leaves the destination as the first run left it; and
    two runs on sources of the same content leave the same content at the
    destination. *)
Theorem rerun_is_idempotent (csv_path : string) (output_path : option string)
    (w : world) :
  faults w = [] ->
  let dst := destination csv_path output_path in
  let w1 := (create_sorted_copy csv_path output_path w).2 in
  let w2 := (create_sorted_copy csv_path output_path w1).2 in
  files w1 !! csv_path = files w !! csv_path /\
  files w2 !! dst = files w1 !! dst /\
  (forall v data, faults v = [] -> csv_path <> dst ->
     files w !! csv_path = Some data -> files v !! csv_path = Some data ->
     files (create_sorted_copy csv_path output_path v).2 !! dst = files w1 !! dst).
Proof.
  intros Hq dst w1 w2.
  destruct (create_sorted_copy_quiet csv_path output_path w Hq) as [Hq1 Hw1].
  destruct (create_sorted_copy_quiet csv_path output_path w1 Hq1) as [_ Hw2].
  fold w1 in Hw1, Hw2. fold w2 in Hw2. fold dst in Hw1, Hw2.
  assert (files w1 !! csv_path = files w !! csv_path) as Hsrc.
  { rewrite Hw1. destruct (files w !! csv_path) eqn:Hdata; [|done].
    case_decide; [done|]. by rewrite lookup_insert_ne. }
  split; [done|]. split.
  - rewrite Hw2, Hsrc, Hw1.
    destruct (files w !! csv_path) as [data|]; [|done].
    case_decide; [done|]. by rewrite insert_insert_eq.
  - intros v data Hv Hne Hdata Hdata'.
    destruct (create_sorted_copy_quiet csv_path output_path v Hv) as [_ ->].
    fold dst. rewrite Hw1, Hdata, Hdata', !decide_False by done.
    by rewrite !lookup_insert_eq.
Qed.

Lemma rerun_is_idempotent_witness :
  let dst := destination "/data/scan.csv" None in
  let w1 := (create_sorted_copy "/data/scan.csv" None Sample.w).2 in
  let w2 := (create_sorted_copy "/data/scan.csv" None w1).2 in
  files w1 !! "/data/scan.csv" = files Sample.w !! "/data/scan.csv" /\
  files w2 !! dst = files w1 !! dst /\
  (forall v data, faults v = [] -> "/data/scan.csv" <> dst ->
     files Sample.w !! "/data/scan.csv" = Some data ->
     files v !! "/data/scan.csv" = Some data ->
     files (create_sorted_copy "/data/scan.csv" None v).2 !! dst = files w1 !! dst).
Proof.
  apply (rerun_is_idempotent "/data/scan.csv" None Sample.w).
  reflexivity.
Defined.

(** C8: when the destination is not the source, the source has after the
    run the content it had before; and so has every file but the
    destination. *)
Theorem source_is_not_changed (csv_path : string) (output_path : option string)
    (w : world) :
  destination csv_path output_path <> csv_path ->
  let w' := (create_sorted_copy csv_path output_path w).2 in
  files w' !! csv_path = files w !! csv_path /\
  (forall path, path <> destination csv_path output_path ->
     files w' !! path = files w !! path).
Proof.
  intros Hne w'.
  assert (forall path, path <> destination csv_path output_path ->
                       files w' !! path = files w !! path) as Hframe.
  { intros path Hpath. subst w'.
    destruct (create_sorted_copy_returns csv_path output_path w) as ([p|] & w' & Hrun);
      rewrite Hrun; simpl.
    - apply create_sorted_copy_success in Hrun
        as (? & ? & ? & ? & ? & -> & _ & _ & _ & _ & _ & -> & _).
      by rewrite lookup_insert_ne.
    - apply create_sorted_copy_failure in Hrun as [_ [->|(? & _ & _ & ->)]]; [done|].
      by rewrite lookup_insert_ne. }
  split; [|done]. by apply Hframe.
Qed.

Lemma source_is_not_changed_witness :
  let w' := (create_sorted_copy "/data/scan.csv" None Sample.w).2 in
  files w' !! "/data/scan.csv" = files Sample.w !! "/data/scan.csv" /\
  (forall path, path <> destination "/data/scan.csv" None ->
     files w' !! path = files Sample.w !! path).
Proof.
  apply (source_is_not_changed "/data/scan.csv" None Sample.w).
  by vm_compute.
Defined.

(** C9: every row the loop keeps has a first field whose timestamp part
    parses again, so the key of the sort is defined on all of them and
    [sorted] returns. *)
Theorem sort_key_is_defined (rows : list (list string)) (w : world) :
  exists sorted_rows w',
    filter_loop rows [] w = (inr sorted_rows, w') /\
    (forall row, row ∈ sorted_rows -> exists t, sort_key row = inr t) /\
    exists body, Sorted.sorted Datetime.ltb sort_key true sorted_rows = inr body.
Proof.
  rewrite filter_loop_spec. simpl. eexists _, _. split; [done|].
  assert (forall row, row ∈ kept rows -> exists t, sort_key row = inr t) as Hkey.
  { unfold kept. intros row [Hrow _]%list_elem_of_filter.
    by apply check_row_sort_key. }
  split; [done|]. by apply SortedFacts.sorted_total.
Qed.

(** C10: a row without fields is passed over before [row[0]] is read: the
    check returns without any exception, the row is not kept, and since no
    kept row is empty the key of the sort never indexes an empty row. *)
Theorem empty_row_is_guarded :
  check_row [] = inr false /\
  (forall rows w,
     exists sorted_rows w',
       filter_loop rows [] w = (inr sorted_rows, w') /\
       ([] ∉ sorted_rows) /\
       (msg_skipping [] ∉ skipped rows) /\
       forall row, row ∈ sorted_rows -> sort_key row <> inl IndexError) /\
  (forall csv_path output_path w w' p,
     create_sorted_copy csv_path output_path w = (inr (Some p), w') ->
     exists header body,
       files w' !! p = Some (Csv.writerow header +:+ Csv.writerows body) /\
       ([] ∉ body)).
Proof.
  split; [done|]. split.
  - intros rows w. rewrite filter_loop_spec. simpl. eexists _, _. split; [done|].
    unfold kept, skipped. split; [|split].
    + by intros [? _]%list_elem_of_filter.
    + intros (row & [= <-] & [Hrow _]%list_elem_of_filter)%list_elem_of_fmap.
      done.
    + intros row [Hrow _]%list_elem_of_filter.
      apply check_row_sort_key in Hrow as [t ->]. done.
  - intros csv_path output_path w w' p
      (data & header & reader & rows & body & -> & _ & Hsrc & Hnext & Hrows
       & Hsort & Hfiles & _)%create_sorted_copy_success.
    exists header, body. split; [by rewrite Hfiles, lookup_insert_eq|].
    apply SortedFacts.sorted_Permutation in Hsort. rewrite Hsort.
    unfold kept. by intros [? _]%list_elem_of_filter.
Qed.

(** C3, as stated, fails: the header is parsed and written again, not
    copied.  A header line with a field in quotes that needs none comes
    out without the quotes. *)
Lemma header_is_rewritten :
  let run := create_sorted_copy "scan.csv" None
               (Sample.world_with "scan.csv" Sample.quoted_log) in
  run.1 = inr (Some "scan_sorted.csv") /\
  exists out, files run.2 !! "scan_sorted.csv" = Some out /\
    first_line Sample.quoted_log
      = String Csv.quotechar "CREATED" +:+ String Csv.quotechar ",VAL" /\
    first_line out = "CREATED,VAL" /\
    first_line out <> first_line Sample.quoted_log.
Proof.
  split; [by vm_compute|]. eexists. split; [by vm_compute|].
  split; [by vm_compute|]. split; [by vm_compute|]. by vm_compute.
Qed.

(** C3 (amended): in a run that succeeds the output begins with the
    header record, that is the first record [csv.reader] finds in the
    input, as [csv.writer] writes it; and when the first line of the input
    holds no double quote, the first line of the output is that line,
    character for character (the line ending aside, which becomes CR LF). *)
Theorem header_preservation (csv_path : string) (output_path : option string)
    (w w' : world) (p : string) :
  create_sorted_copy csv_path output_path w = (inr (Some p), w') ->
  exists data header reader rest,
    files w !! csv_path = Some data /\
    Csv.next (Csv.readlines data) = inr (header, reader) /\
    files w' !! p = Some (Csv.writerow header +:+ rest) /\
    (Str.mem Csv.quotechar (first_line data) = false ->
     first_line (Csv.writerow header +:+ rest) = first_line data).
Proof.
  intros (data & header & reader & rows & body & -> & _ & Hsrc & Hnext & Hrows
          & Hsort & Hfiles & _)%create_sorted_copy_success.
  exists data, header, reader, (Csv.writerows body).
  split; [done|]. split; [done|]. split.
  - by rewrite Hfiles, lookup_insert_eq.
  - intros Hq. rewrite (CsvFacts.next_plain_header data header reader Hq Hnext).
    rewrite StrFacts.app_assoc. apply CsvFacts.first_line_app.
    + by apply CsvFacts.first_line_plain.
    + by right; right; right.
    + done.
Qed.

Lemma header_preservation_witness :
  exists data header reader rest,
    files Sample.w !! "/data/scan.csv" = Some data /\
    Csv.next (Csv.readlines data) = inr (header, reader) /\
    files (create_sorted_copy "/data/scan.csv" None Sample.w).2 !! "/data/scan_sorted.csv"
      = Some (Csv.writerow header +:+ rest) /\
    (Str.mem Csv.quotechar (first_line data) = false ->
     first_line (Csv.writerow header +:+ rest) = first_line data).
Proof.
  apply (header_preservation "/data/scan.csv" None Sample.w).
  by vm_compute.
Defined.

(** C6: without a destination argument a run that succeeds returns the
    path [join(dirname(src), name + "_sorted" + ext)], where [name] and
    [ext] are [splitext(basename(src))], and the sorted table is at that
    path.  For a source [dir/name.ext] that path is [dir/name_sorted.ext],
    and for a source [name.ext] it is [name_sorted.ext]. *)
Theorem destination_is_derived :
  (forall csv_path w w' p,
     create_sorted_copy csv_path None w = (inr (Some p), w') ->
     p = Posixpath.join (Posixpath.dirname csv_path)
           ((Posixpath.splitext (Posixpath.basename csv_path)).1 +:+ "_sorted"
            +:+ (Posixpath.splitext (Posixpath.basename csv_path)).2) /\
     is_Some (files w' !! p)) /\
  (forall dir name ext,
     dir <> "" -> Posixpath.endswith_sep dir = false ->
     Str.mem Posixpath.sep name = false -> all_dots name = false ->
     Str.mem Posixpath.sep ext = false -> Str.mem Posixpath.extsep ext = false ->
     default_output_path (dir +:+ "/" +:+ name +:+ "." +:+ ext)
     = dir +:+ "/" +:+ name +:+ "_sorted." +:+ ext) /\
  (forall name ext,
     Str.mem Posixpath.sep name = false -> all_dots name = false ->
     Str.mem Posixpath.sep ext = false -> Str.mem Posixpath.extsep ext = false ->
     default_output_path (name +:+ "." +:+ ext) = name +:+ "_sorted." +:+ ext).
Proof.
  split; [|split].
  - intros csv_path w w' p
      (data & header & reader & rows & body & -> & _ & _ & _ & _ & _ & Hfiles & _)
        %create_sorted_copy_success.
    split.
    + unfold destination, default_output_path. simpl.
      by destruct (Posixpath.splitext _).
    + rewrite Hfiles, lookup_insert_eq. by eexists.
  - intros dir name ext Hdir Hend Hname Hdots Hext Hdot.
    assert (Str.mem Posixpath.sep (name +:+ String Posixpath.extsep ext) = false) as Hbase.
    { rewrite StrFacts.mem_app, Hname. simpl. exact Hext. }
    unfold default_output_path. simpl.
    rewrite PosixpathFacts.dirname_app, PosixpathFacts.basename_app by done.
    rewrite PosixpathFacts.splitext_app by done.
    unfold Posixpath.join.
    rewrite PosixpathFacts.all_dots_startswith by done.
    by rewrite Hend, bool_decide_false by done.
  - intros name ext Hname Hdots Hext Hdot.
    assert (Str.mem Posixpath.sep (name +:+ String Posixpath.extsep ext) = false) as Hbase.
    { rewrite StrFacts.mem_app, Hname. simpl. exact Hext. }
    unfold default_output_path, Posixpath.dirname, Posixpath.basename. simpl.
    rewrite PosixpathFacts.after_last_sep_None by done. simpl.
    rewrite PosixpathFacts.splitext_app by done.
    unfold Posixpath.join.
    by rewrite PosixpathFacts.all_dots_startswith by done.
Qed.

Lemma destination_is_derived_witness :
  ("/data/scan_sorted.csv"
   = Posixpath.join (Posixpath.dirname "/data/scan.csv")
       ((Posixpath.splitext (Posixpath.basename "/data/scan.csv")).1 +:+ "_sorted"
        +:+ (Posixpath.splitext (Posixpath.basename "/data/scan.csv")).2) /\
   is_Some (files (create_sorted_copy "/data/scan.csv" None Sample.w).2
              !! "/data/scan_sorted.csv")) /\
  default_output_path ("/data" +:+ "/" +:+ "scan" +:+ "." +:+ "csv")
  = "/data" +:+ "/" +:+ "scan" +:+ "_sorted." +:+ "csv" /\
  default_output_path ("scan" +:+ "." +:+ "csv") = "scan" +:+ "_sorted." +:+ "csv".
Proof.
  split; [|split].
  - apply (proj1 destination_is_derived "/data/scan.csv" Sample.w). by vm_compute.
  - by apply (proj1 (proj2 destination_is_derived) "/data" "scan" "csv").
  - by apply (proj2 (proj2 destination_is_derived) "scan" "csv").
Defined.

Lemma failures_are_contained_witness :
  (create_sorted_copy "/data/scan.csv" None
     (World (files Sample.w) [] [None; Some OSError])).1 = inr None /\
  (create_sorted_copy "empty.csv" None (Sample.world_with "empty.csv" "")).1 = inr None /\
  exists w', filter_loop ([["2025/05/03 10:00:00 (Sat)"; "A"]] ++ ["not-a-date"; "x"]
                            :: [["2025/05/04 09:00:00 (Sun)"; "B"]]) [] Sample.w
             = (inr ([] ++ kept [["2025/05/03 10:00:00 (Sat)"; "A"]]
                        ++ kept [["2025/05/04 09:00:00 (Sun)"; "B"]]), w').
Proof.
  split; [|split].
  - apply (proj1 (proj2 failures_are_contained) _ _ _ 1 OSError); [lia|done].
  - by apply (proj1 (proj2 (proj2 failures_are_contained)) "empty.csv" None
                (Sample.world_with "empty.csv" "") "" StopIteration).
  - by apply (proj2 (proj2 (proj2 failures_are_contained)) _ _ _ _ _ ValueError).
Defined.

Lemma empty_row_is_guarded_witness :
  exists header body,
    files (create_sorted_copy "/data/scan.csv" None Sample.w).2 !! "/data/scan_sorted.csv"
      = Some (Csv.writerow header +:+ Csv.writerows body) /\
    ([] ∉ body).
Proof.
  apply (proj2 (proj2 empty_row_is_guarded) "/data/scan.csv" None Sample.w).
  by vm_compute.
Defined.

(** ** The scenarios of the specification, run on the embedding *)

Module Scenarios.
Import Sample.

(** 1. Two records, the older one first: the newer one comes out first. *)
Example newest_first :
  let run := create_sorted_copy "/data/scan.csv" None w in
  run.1 = inr (Some "/data/scan_sorted.csv") /\
  stdout run.2 = [msg_success 2 "/data/scan_sorted.csv"] /\
  files run.2 !! "/data/scan_sorted.csv"
  = Some ("CREATED,VAL" +:+ CRLF
          +:+ "2025/05/04 09:00:00 (Sun),B" +:+ CRLF
          +:+ "2025/05/03 10:00:00 (Sat),A" +:+ CRLF).
Proof. by vm_compute. Qed.

(** 2. and 3. A marker line and a line without a date are left out, the
    second one with a message; an empty line is passed over. *)
Example foreign_rows_are_dropped :
  let data := "CREATED,VAL" +:+ LF
              +:+ "2025/05/03 10:00:00 (Sat),A" +:+ LF
              +:+ "npm WARN deprecated,x" +:+ LF
              +:+ LF
              +:+ "not-a-date,x" +:+ LF
              +:+ "2025/05/04 09:00:00 (Sun),B" +:+ LF in
  let run := create_sorted_copy "scan.csv" (Some "out.csv") (world_with "scan.csv" data) in
  run.1 = inr (Some "out.csv") /\
  stdout run.2 = [msg_skipping ["not-a-date"; "x"]; msg_success 2 "out.csv"] /\
  files run.2 !! "out.csv"
  = Some ("CREATED,VAL" +:+ CRLF
          +:+ "2025/05/04 09:00:00 (Sun),B" +:+ CRLF
          +:+ "2025/05/03 10:00:00 (Sat),A" +:+ CRLF) /\
  files run.2 !! "scan.csv" = Some data.
Proof. by vm_compute. Qed.

(** 4. A source that is not there. *)
Example missing_source :
  create_sorted_copy "missing.csv" None (World ∅ [] [])
  = (inr None, World ∅ [msg_not_found "missing.csv"] []).
Proof. by vm_compute. Qed.

(** 5. Two records of one timestamp keep their order, around a newer one
    that overtakes both. *)
Example ties_keep_their_order :
  let rows := [["2025/05/03 10:00:00 (Sat)"; "R1"];
               ["2025/05/04 09:00:00 (Sun)"; "N"];
               ["2025/05/03 10:00:00 (Sat)"; "R2"]] in
  Sorted.sorted Datetime.ltb sort_key true rows
  = inr [["2025/05/04 09:00:00 (Sun)"; "N"];
         ["2025/05/03 10:00:00 (Sat)"; "R1"];
         ["2025/05/03 10:00:00 (Sat)"; "R2"]].
Proof. by vm_compute. Qed.

(** What [strptime] takes and what it refuses. *)
Example strptime_accepts :
  Strptime.strptime "2025/05/03 23:39:46" = inr (Datetime.mk 2025 5 3 23 39 46) /\
  Strptime.strptime "2025/5/3 3:9:6" = inr (Datetime.mk 2025 5 3 3 9 6) /\
  Strptime.strptime "2024/02/29 00:00:00" = inr (Datetime.mk 2024 2 29 0 0 0).
Proof. by vm_compute. Qed.

Example strptime_refuses :
  Strptime.strptime "2025/02/29 00:00:00" = inl ValueError /\
  Strptime.strptime "2025/13/01 00:00:00" = inl ValueError /\
  Strptime.strptime "2025/05/03 24:00:00" = inl ValueError /\
  Strptime.strptime "2025/05/03 23:59:60" = inl ValueError /\
  Strptime.strptime "2025/05/03 23:39:46 " = inl ValueError /\
  Strptime.strptime "0000/05/03 23:39:46" = inl ValueError /\
  Strptime.strptime "not-a-date" = inl ValueError.
Proof. by vm_compute. Qed.

(** A failure of the environment after the copy leaves the plain copy at
    the destination. *)
Example write_failure_leaves_the_copy :
  let run := create_sorted_copy "/data/scan.csv" None
               (World (files w) [] [None; None; Some OSError]) in
  run.1 = inr None /\
  stdout run.2 = [msg_error OSError] /\
  files run.2 !! "/data/scan_sorted.csv" = Some log.
Proof. by vm_compute. Qed.

(** The source given as its own destination. *)
Example same_file :
  let run := create_sorted_copy "/data/scan.csv" (Some "/data/scan.csv") w in
  run.1 = inr None /\
  stdout run.2 = [msg_error SameFileError] /\
  files run.2 = files w.
Proof. by vm_compute. Qed.

End Scenarios.

(** * Further properties *)

(** ** A run in an environment that lets every call through *)

Lemma newest_first_sorted (rows : list (list string)) :
  Sorted.sorted Datetime.ltb sort_key true (kept rows) = inr (newest_first rows).
Proof.
  unfold newest_first.
  destruct (SortedFacts.sorted_total Datetime.ltb sort_key (kept rows)) as [body ->];
    [|done].
  unfold kept. intros row [Hrow _]%list_elem_of_filter.
  by apply check_row_sort_key.
Qed.

Lemma create_sorted_copy_quiet_run (csv_path : string) (output_path : option string)
    (w : world) (data : string) :
  faults w = [] ->
  files w !! csv_path = Some data ->
  csv_path <> destination csv_path output_path ->
  create_sorted_copy csv_path output_path w =
    let dst := destination csv_path output_path in
    match read_table data with
    | inl e =>
        (inr None,
         World (<[dst := data]> (files w)) (stdout w ++ [msg_error e]) [])
    | inr (header, rows) =>
        (inr (Some dst),
         World (<[dst := Csv.writerow header +:+ Csv.writerows (newest_first rows)]> (files w))
               (stdout w ++ skipped rows ++ [msg_success (length (newest_first rows)) dst])
               [])
    end.
Proof.
  intros Hq Hsrc Hne. unfold destination in *.
  destruct w as [fs out script]; simpl in *; subst script.
  unfold read_table.
  destruct (Csv.next (Csv.readlines data)) as [e|[header reader]] eqn:Hnext; simpl;
    [|destruct (Csv.list_reader reader) as [e|rows] eqn:Hrows; simpl].
  all: destruct (create_sorted_copy _ _ _) as [r w'] eqn:Hrun.
  all: revert Hrun; revert r w'; run_cases.
  all: repeat match goal with
              | H1 : ?x = _, H2 : ?x = _ |- _ => rewrite H1 in H2; simplify_eq
              end.
  all: try (rewrite newest_first_sorted in *; simplify_eq).
  all: rewrite ?insert_insert_eq; try rewrite <-app_assoc; done.
Qed.

(** ** What a run reports *)

Lemma check_row_false (row : list string) :
  check_row row = inr false <->
  row = [] \/ exists row0, head row = Some row0 /\
                (row0 = "" \/ Str.startswith "npm " row0 = true).
Proof.
  destruct row as [|row0 row].
  - split; [by left|done].
  - rewrite check_row_cons. split.
    + intros H. right. exists row0. split; [done|].
      destruct (decide (row0 = "")); [by left|]. right.
      destruct (Str.startswith "npm " row0); [done|].
      by destruct (Strptime.strptime _).
    + intros [|(? & [= <-] & [->|Hnpm])]; [done..|].
      case_decide; [done|]. by rewrite Hnpm.
Qed.

Lemma row_raises_true (row : list string) :
  row_raises row = true <->
  exists row0, head row = Some row0 /\ row0 <> "" /\
    Str.startswith "npm " row0 = false /\
    Strptime.strptime (date_part row0) = inl ValueError.
Proof.
  unfold row_raises. destruct row as [|row0 row].
  - split; [done|]. by intros (? & [=] & _).
  - rewrite check_row_cons. split.
    + intros H. exists row0. split; [done|].
      destruct (decide (row0 = "")); [done|]. split; [done|].
      destruct (Str.startswith "npm " row0); [done|]. split; [done|].
      destruct (Strptime.strptime (date_part row0)) as [e|] eqn:Hp; [|done].
      by rewrite (strptime_raises _ _ Hp).
    + intros (? & [= <-] & Hne & -> & ->). by rewrite decide_False.
Qed.

Lemma three_ways (rows : list (list string)) :
  length (kept rows) + length (skipped rows) + length (silent rows) = length rows.
Proof.
  unfold kept, skipped, silent, row_raises. rewrite length_fmap.
  induction rows as [|row rows IH]; [done|].
  rewrite !filter_cons.
  destruct (check_row row) as [e|[|]] eqn:Hrow;
    repeat case_decide; simplify_eq; simpl; lia.
Qed.

(** X1: on success the number in the last message is the number of
    records written under the header, and these records are the accepted
    rows of the input, each as often as the input has it; before that
    message come the messages of the loop and nothing else. *)
Theorem success_report (csv_path : string) (output_path : option string)
    (w w' : world) (p : string) :
  create_sorted_copy csv_path output_path w = (inr (Some p), w') ->
  exists data header rows body,
    files w !! csv_path = Some data /\
    read_table data = inr (header, rows) /\
    files w' !! p = Some (Csv.writerow header +:+ Csv.writerows body) /\
    body ≡ₚ kept rows /\
    stdout w' = stdout w ++ skipped rows ++ [msg_success (length body) p] /\
    length body + length (skipped rows) <= length rows.
Proof.
  intros (data & header & reader & rows & body & -> & _ & Hsrc & Hnext & Hrows
          & Hsort & Hfiles & Hout & _)%create_sorted_copy_success.
  exists data, header, rows, body.
  apply SortedFacts.sorted_Permutation in Hsort.
  split; [done|]. split; [|split; [|split; [|split]]]; try done.
  - unfold read_table. rewrite Hnext. simpl. by rewrite Hrows.
  - by rewrite Hfiles, lookup_insert_eq.
  - rewrite Hsort. pose proof (three_ways rows). lia.
Qed.

Lemma success_report_witness :
  exists data header rows body,
    files Sample.w !! "/data/scan.csv" = Some data /\
    read_table data = inr (header, rows) /\
    files (create_sorted_copy "/data/scan.csv" None Sample.w).2 !! "/data/scan_sorted.csv"
      = Some (Csv.writerow header +:+ Csv.writerows body) /\
    body ≡ₚ kept rows /\
    stdout (create_sorted_copy "/data/scan.csv" None Sample.w).2
      = stdout Sample.w ++ skipped rows ++ [msg_success (length body) "/data/scan_sorted.csv"] /\
    length body + length (skipped rows) <= length rows.
Proof.
  apply (success_report "/data/scan.csv" None Sample.w).
  by vm_compute.
Defined.

(** X2: the loop prints one message for each row whose first field is
    not empty, is no ["npm "] line, and has a date part that [strptime]
    refuses; it prints them in the order of the rows and touches nothing
    else.  A row without fields, with an empty first field or with an
    ["npm "] first field is dropped without a message.  Every row goes one
    of the three ways. *)
Theorem loop_messages (rows sorted_rows : list (list string)) (w : world) :
  filter_loop rows sorted_rows w
  = (inr (sorted_rows ++ kept rows),
     World (files w)
           (stdout w ++ (msg_skipping <$> filter (fun row => row_raises row = true) rows))
           (faults w)) /\
  (forall row, row_raises row = true <->
     exists row0, head row = Some row0 /\ row0 <> "" /\
       Str.startswith "npm " row0 = false /\
       Strptime.strptime (date_part row0) = inl ValueError) /\
  (forall row, row ∈ silent rows <->
     row ∈ rows /\
     (row = [] \/ exists row0, head row = Some row0 /\
                    (row0 = "" \/ Str.startswith "npm " row0 = true))) /\
  length (kept rows) + length (skipped rows) + length (silent rows) = length rows.
Proof.
  split; [apply filter_loop_spec|]. split; [apply row_raises_true|].
  split; [|apply three_ways].
  intros row. unfold silent. by rewrite list_elem_of_filter, check_row_false, (comm and).
Qed.

(** ** Tables that cannot be read *)

Lemma parse_add_char_raises (self : Csv.ReaderObj) (c : ascii) (e : exn) :
  Csv.parse_add_char self c = inl e -> e = csv_Error.
Proof. unfold Csv.parse_add_char. case_match; by intros [= <-]. Qed.

Lemma parse_process_char_raises (self : Csv.ReaderObj) (c : Csv.input) (e : exn) :
  Csv.parse_process_char self c = inl e -> e = csv_Error.
Proof.
  unfold Csv.parse_process_char, Csv.start_field. intros H.
  repeat case_match; simplify_eq/=; try done;
    repeat match goal with
           | H : Csv.parse_add_char _ _ = inl _ |- _ =>
               apply parse_add_char_raises in H
           | H : context [Csv.parse_add_char ?s ?c] |- _ =>
               destruct (Csv.parse_add_char s c) eqn:?; simplify_eq/=
           end; done.
Qed.

Lemma parse_line_raises (line : string) (self : Csv.ReaderObj) (e : exn) :
  Csv.parse_line self line = inl e -> e = csv_Error.
Proof.
  revert self. induction line as [|c line IH]; intros self; simpl.
  - apply parse_process_char_raises.
  - destruct (Csv.parse_process_char self (Csv.Ch c)) eqn:Hc; simpl.
    + intros [= <-]. by eapply parse_process_char_raises.
    + apply IH.
Qed.

(** After a line the parser is at the start of a record or inside quotes. *)
Lemma parse_line_state (line : string) (self self' : Csv.ReaderObj) :
  Csv.parse_line self line = inr self' ->
  Csv.state self' = Csv.START_RECORD \/ Csv.state self' = Csv.IN_QUOTED_FIELD.
Proof.
  revert self. induction line as [|c line IH]; intros self; simpl.
  - unfold Csv.parse_process_char, Csv.start_field.
    destruct self as [fs f []]; simpl; intros [= <-]; simpl; auto.
  - destruct (Csv.parse_process_char self (Csv.Ch c)); simpl; [done|]. apply IH.
Qed.

Lemma iternext_go_raises (lines : list string) (self : Csv.ReaderObj) (e : exn) :
  Csv.iternext_go self lines = inl e -> e = csv_Error.
Proof.
  revert self. induction lines as [|line lines IH]; intros self; simpl.
  - by case_match.
  - destruct (Csv.parse_line self line) eqn:Hline; simpl.
    + intros [= <-]. by eapply parse_line_raises.
    + case_decide; [done|]. apply IH.
Qed.

Lemma iternext_go_Some (lines : list string) (self : Csv.ReaderObj) :
  Csv.state self = Csv.IN_QUOTED_FIELD \/ lines <> [] ->
  Csv.iternext_go self lines <> inr None.
Proof.
  revert self. induction lines as [|line lines IH]; intros self Hst; simpl.
  - destruct Hst as [->|]; [|done]. simpl. by rewrite orb_true_r.
  - destruct (Csv.parse_line self line) as [|self'] eqn:Hline; simpl; [done|].
    case_decide as Hrec; [done|]. apply IH. left.
    by destruct (parse_line_state _ _ _ Hline).
Qed.

Lemma list_go_raises (lines : list string) (self : Csv.ReaderObj) (e : exn) :
  Csv.list_go self lines = inl e -> e = csv_Error.
Proof.
  revert self. induction lines as [|line lines IH]; intros self; simpl.
  - by case_match.
  - destruct (Csv.parse_line self line) eqn:Hline; simpl.
    + intros [= <-]. by eapply parse_line_raises.
    + case_decide; [|apply IH].
      destruct (Csv.list_go Csv.parse_reset lines) eqn:Hrest; simpl; [|done].
      intros [= <-]. by eapply IH.
Qed.

Lemma readlines_nil (data : string) : Csv.readlines data = [] <-> data = "".
Proof.
  split; [|by intros ->]. destruct data as [|c data]; [done|].
  unfold Csv.readlines.
  destruct (CsvFacts.readlines_go_first "" (String c data)) as (t & rest & _ & -> & _);
    [by right|done].
Qed.

Lemma read_table_raises (data : string) (e : exn) :
  read_table data = inl e ->
  e = csv_Error \/ (e = StopIteration /\ data = "").
Proof.
  unfold read_table, Csv.next, Csv.list_reader.
  destruct (Csv.iternext_go Csv.parse_reset (Csv.readlines data)) as [e'|[[h rd]|]] eqn:Hnext;
    simpl.
  - intros [= <-]. left. by eapply iternext_go_raises.
  - destruct (Csv.list_go Csv.parse_reset rd) eqn:Hrows; simpl; [|done].
    intros [= <-]. left. by eapply list_go_raises.
  - intros [= <-]. right. split; [done|]. apply readlines_nil.
    destruct (Csv.readlines data) eqn:Hlines; [done|].
    by destruct (iternext_go_Some (s :: l) Csv.parse_reset); [right|].
Qed.

(** X3: with an environment that lets every call through, a source that
    exists and is not the destination, the run succeeds exactly when
    [csv] can read the table.  When it cannot, the run returns [None],
    prints that one error, and leaves at the destination the plain copy of
    the source.  The table cannot be read only when the source is empty
    (there is no header: [StopIteration]) or when [csv] itself refuses it. *)
Theorem unreadable_table_leaves_the_copy (csv_path : string)
    (output_path : option string) (w : world) (data : string) :
  faults w = [] ->
  files w !! csv_path = Some data ->
  csv_path <> destination csv_path output_path ->
  let dst := destination csv_path output_path in
  let run := create_sorted_copy csv_path output_path w in
  (run.1 = inr (Some dst) <-> exists header rows, read_table data = inr (header, rows)) /\
  (forall e, read_table data = inl e ->
     run = (inr None, World (<[dst := data]> (files w)) (stdout w ++ [msg_error e]) []) /\
     (e = csv_Error \/ (e = StopIteration /\ data = ""))) /\
  (data = "" -> read_table data = inl StopIteration).
Proof.
  intros Hq Hsrc Hne dst run. subst run.
  rewrite (create_sorted_copy_quiet_run _ _ _ data Hq Hsrc Hne). fold dst.
  split; [|split].
  - destruct (read_table data) as [e|[header rows]]; simpl.
    + split; [done|]. by intros (? & ? & ?).
    + split; [by eexists _, _|done].
  - intros e He. rewrite He. split; [done|]. by apply read_table_raises.
  - by intros ->.
Qed.

Lemma unreadable_table_leaves_the_copy_witness :
  let w := Sample.world_with "empty.csv" "" in
  let dst := destination "empty.csv" None in
  let run := create_sorted_copy "empty.csv" None w in
  (run.1 = inr (Some dst) <-> exists header rows, read_table "" = inr (header, rows)) /\
  (forall e, read_table "" = inl e ->
     run = (inr None, World (<[dst := ""]> (files w)) (stdout w ++ [msg_error e]) []) /\
     (e = csv_Error \/ (e = StopIteration /\ "" = ""))) /\
  ("" = "" -> read_table "" = inl StopIteration).
Proof.
  apply (unreadable_table_leaves_the_copy "empty.csv" None
           (Sample.world_with "empty.csv" "") "");
    by vm_compute.
Defined.

(** ** The source as its own destination *)

(** X4: a run that is given the source as its destination is refused:
    it returns [None] and changes no file, and unless the environment
    fails first the error it prints is [SameFileError]. *)
Theorem in_place_is_refused (csv_path : string) (w : world) (data : string) :
  files w !! csv_path = Some data ->
  let run := create_sorted_copy csv_path (Some csv_path) w in
  run.1 = inr None /\
  files run.2 = files w /\
  ((forall e, head (faults w) <> Some (Some e)) ->
   stdout run.2 = stdout w ++ [msg_error SameFileError]).
Proof.
  intros Hsrc run. subst run.
  destruct (create_sorted_copy csv_path (Some csv_path) w) as [r w'] eqn:Hrun.
  revert Hrun. revert r w'. run_cases.
  all: split; [done|]; split; [done|]; intros Hhd; try done.
  all: repeat match goal with
              | H : faults _ = _ |- _ => rewrite H in Hhd
              end.
  all: by destruct (Hhd _ eq_refl).
Qed.

Lemma in_place_is_refused_witness :
  let run := create_sorted_copy "/data/scan.csv" (Some "/data/scan.csv") Sample.w in
  run.1 = inr None /\
  files run.2 = files Sample.w /\
  ((forall e, head (faults Sample.w) <> Some (Some e)) ->
   stdout run.2 = stdout Sample.w ++ [msg_error SameFileError]).
Proof.
  apply (in_place_is_refused "/data/scan.csv" Sample.w Sample.log).
  by vm_compute.
Defined.

(** ** The timestamps of the output *)

Lemma check_date_fields_inr (y m d : Z) :
  Datetime.check_date_fields y m d = inr () ->
  (1 <= y <= 9999)%Z /\ (1 <= m <= 12)%Z /\ (1 <= d <= Datetime.days_in_month y m)%Z.
Proof.
  unfold Datetime.check_date_fields, Datetime.between. intros H.
  repeat case_match; simplify_eq.
  repeat match goal with
         | H : negb _ = false |- _ => apply negb_false_iff, andb_prop in H as [??]
         end.
  lia.
Qed.

Lemma check_time_fields_inr (h mi s : Z) :
  Datetime.check_time_fields h mi s = inr () ->
  (0 <= h <= 23)%Z /\ (0 <= mi <= 59)%Z /\ (0 <= s <= 59)%Z.
Proof.
  unfold Datetime.check_time_fields, Datetime.between. intros H.
  repeat case_match; simplify_eq.
  repeat match goal with
         | H : negb _ = false |- _ => apply negb_false_iff, andb_prop in H as [??]
         end.
  lia.
Qed.

Lemma datetime_new_valid (y m d h mi s : Z) (t : Datetime.datetime) :
  Datetime.new y m d h mi s = inr t -> valid_datetime t.
Proof.
  unfold Datetime.new.
  destruct (Datetime.check_date_fields y m d) as [|[]] eqn:Hd; simpl; [done|].
  destruct (Datetime.check_time_fields h mi s) as [|[]] eqn:Ht; simpl; [done|].
  intros [= <-]. apply check_date_fields_inr in Hd. apply check_time_fields_inr in Ht.
  unfold valid_datetime. simpl. tauto.
Qed.

Lemma strptime_valid (s : string) (t : Datetime.datetime) :
  Strptime.strptime s = inr t -> valid_datetime t.
Proof.
  unfold Strptime.strptime.
  destruct (Regex.re_match _ s) as [[found [|c rest]]|]; [|done..].
  repeat match goal with
         | |- rbind ?x _ = _ -> _ => destruct x; cbn [rbind]; [done|]
         end.
  apply datetime_new_valid.
Qed.

Lemma sorted_descending_all {A K : Type} (ltb : K -> K -> bool)
    (key : A -> result K) (l out l1 l2 l3 : list A) (a b : A) :
  (forall x, ltb x x = false) ->
  (forall x y z, ltb x y = true -> ltb y z = true -> ltb x z = true) ->
  (forall x y, ltb x y = false -> ltb y x = false -> x = y) ->
  Sorted.sorted ltb key true l = inr out ->
  out = l1 ++ a :: l2 ++ b :: l3 ->
  exists ka kb, key a = inr ka /\ key b = inr kb /\ ltb ka kb = false.
Proof.
  intros Hirr Htr Htot
    (kl & [_ Hdec]%SortedFacts.decorate_inr & ->)%SortedFacts.sorted_reverse_inv Hout.
  apply fmap_app_inv in Hout as (kl1 & kl' & _ & Hout & Hrev). symmetry in Hout.
  apply fmap_cons_inv in Hout as ([ka a'] & kl'' & [= ->] & Hout & ->).
  symmetry in Hout.
  apply fmap_app_inv in Hout as (kl2 & kl''' & _ & Hout & ->). symmetry in Hout.
  apply fmap_cons_inv in Hout as ([kb b'] & kl3 & [= ->] & _ & ->).
  assert (Sorted.decorated key (kl1 ++ (ka, a') :: kl2 ++ (kb, b') :: kl3)) as Hdec'.
  { unfold Sorted.decorated. rewrite <-Hrev.
    by rewrite reverse_Permutation, SortedFacts.sort_Permutation, reverse_Permutation. }
  apply Forall_app in Hdec' as [_ Hdec'].
  apply Forall_cons in Hdec' as [Ha Hdec'].
  apply Forall_app in Hdec' as [_ Hdec'].
  apply Forall_cons in Hdec' as [Hb _].
  exists ka, kb. split; [done|]. split; [done|].
  pose proof (SortedFacts.sort_StronglySorted ltb Hirr Htr Htot (reverse kl)) as Hsorted.
  apply (f_equal reverse) in Hrev. rewrite reverse_involutive in Hrev.
  rewrite Hrev, reverse_app, reverse_cons, reverse_app, reverse_cons,
    <-!app_assoc in Hsorted.
  apply StronglySorted_app_1_r in Hsorted.
  apply (StronglySorted_app_1_elem_of _ _ _ (kb, b') (ka, a')) in Hsorted; [done|..].
  - by left.
  - apply elem_of_app. right. by left.
Qed.

(** X5: every record of the output body carries in its first field a
    timestamp of the calendar (year 1 to 9999, a month, a day that the
    month has, an hour below 24, minute and second below 60), and of two
    records of the body, however far apart, the one that stands first has
    the timestamp that is not the earlier one: the first record is a
    newest one. *)
Theorem output_is_newest_first (csv_path : string) (output_path : option string)
    (w w' : world) (p : string) :
  create_sorted_copy csv_path output_path w = (inr (Some p), w') ->
  exists header body,
    files w' !! p = Some (Csv.writerow header +:+ Csv.writerows body) /\
    (forall row, row ∈ body ->
       exists t, sort_key row = inr t /\ valid_datetime t) /\
    (forall l1 a l2 b l3, body = l1 ++ a :: l2 ++ b :: l3 ->
       exists ta tb, sort_key a = inr ta /\ sort_key b = inr tb /\
         Datetime.leb tb ta = true).
Proof.
  intros (data & header & reader & rows & body & -> & _ & Hsrc & Hnext & Hrows
          & Hsort & Hfiles & _)%create_sorted_copy_success.
  exists header, body. split; [by rewrite Hfiles, lookup_insert_eq|]. split.
  - intros row Hrow.
    rewrite (SortedFacts.sorted_Permutation _ _ _ _ Hsort) in Hrow.
    apply list_elem_of_filter in Hrow as [Hrow _].
    apply check_row_true in Hrow as (row0 & t & Hhd & _ & _ & Ht).
    exists t. destruct row; simplify_eq/=. rewrite sort_key_cons.
    split; [done|]. by eapply strptime_valid.
  - intros l1 a l2 b l3 Hbody.
    destruct (sorted_descending_all Datetime.ltb sort_key _ _ _ _ _ _ _
                DatetimeFacts.ltb_irrefl DatetimeFacts.ltb_trans
                DatetimeFacts.ltb_total Hsort Hbody) as (ta & tb & Ha & Hb & Hlt).
    exists ta, tb. unfold Datetime.leb. by rewrite Hlt.
Qed.

Lemma output_is_newest_first_witness :
  exists header body,
    files (create_sorted_copy "/data/scan.csv" None Sample.w).2 !! "/data/scan_sorted.csv"
      = Some (Csv.writerow header +:+ Csv.writerows body) /\
    (forall row, row ∈ body ->
       exists t, sort_key row = inr t /\ valid_datetime t) /\
    (forall l1 a l2 b l3, body = l1 ++ a :: l2 ++ b :: l3 ->
       exists ta tb, sort_key a = inr ta /\ sort_key b = inr tb /\
         Datetime.leb tb ta = true).
Proof.
  apply (output_is_newest_first "/data/scan.csv" None Sample.w).
  by vm_compute.
Defined.

(** ** The script *)

(** X6: the script never ends with an exception, whatever its arguments
    and whatever [create_sorted_copy] returns: the result is thrown away.
    Without a path argument it prints the line that asks for one and
    touches nothing.  With arguments it runs [create_sorted_copy] on the
    first and, when there is one, the second; further arguments are not
    looked at. *)
Theorem main_never_raises (argv : list string) (w : world) :
  (main argv w).1.1 = inr () /\
  (length argv <= 1 -> main argv w = (inr (), w, true)) /\
  (forall script path more,
     argv = script :: path :: more ->
     main argv w = (inr (), (create_sorted_copy path (head more) w).2, false)).
Proof.
  unfold main. destruct argv as [|script [|path more]]; simpl.
  - split; [done|]. split; [done|]. by intros.
  - split; [done|]. split; [done|]. by intros.
  - assert ((if 2 <? S (S (length more)) then more !! 0 else None) = head more) as ->.
    { by destruct more. }
    destruct (create_sorted_copy_returns path (head more) w) as (r & w' & Hrun).
    rewrite Hrun. split; [done|]. split; [lia|].
    intros ? ? ? [= <- <- <-]. by rewrite Hrun.
Qed.

(** ** The destination the program chooses *)

Module DefaultPath.
Import Posixpath.

Lemma take_drop (n : nat) (s : string) : Str.take n s +:+ Str.drop n s = s.
Proof.
  revert s. induction n as [|n IH]; intros [|c s]; simpl; try done.
  by rewrite IH.
Qed.

Lemma rfind_None_mem (c : ascii) (p : string) :
  rfind c p = None -> Str.mem c p = false.
Proof.
  induction p as [|b p IH]; simpl; [done|].
  destruct (rfind c p); [done|]. case_decide; [done|]. auto.
Qed.

Lemma rfind_Some_after (c : ascii) (p : string) (i : nat) :
  rfind c p = Some i -> Str.mem c (Str.drop (S i) p) = false.
Proof.
  revert i. induction p as [|a p IH]; intros i; simpl; [done|].
  destruct (rfind c p) as [j|] eqn:Hp.
  - intros [= <-]. by apply IH.
  - case_decide; [|done]. intros [= <-].
    replace (Str.drop 0 p) with p by (by destruct p).
    by apply rfind_None_mem.
Qed.

Lemma mem_sep_basename (p : string) : Str.mem sep (basename p) = false.
Proof.
  unfold basename, after_last_sep. destruct (rfind sep p) as [i|] eqn:Hp.
  - by apply rfind_Some_after.
  - simpl. replace (Str.drop 0 p) with p by (by destruct p).
    by apply rfind_None_mem.
Qed.

Lemma splitext_loop_join (n i dot : nat) (p name ext : string) :
  splitext_loop n i dot p = (name, ext) -> name +:+ ext = p.
Proof.
  revert i. induction n as [|n IH]; intros i; simpl.
  - intros [= <- <-]. apply StrFacts.app_nil_r.
  - case_match; [|apply IH]. intros [= <- <-]. apply take_drop.
Qed.

Lemma splitext_join (p name ext : string) :
  splitext p = (name, ext) -> name +:+ ext = p.
Proof.
  unfold splitext. destruct (rfind extsep p); [|intros [= <- <-]; apply StrFacts.app_nil_r].
  case_match; [apply splitext_loop_join|].
  intros [= <- <-]. apply StrFacts.app_nil_r.
Qed.

Lemma endswith_sep_snoc (d : string) :
  endswith_sep d = true -> exists d', d = d' +:+ String sep "".
Proof.
  induction d as [|a d IH]; [done|]. destruct d as [|b d].
  - simpl. intros ->%bool_decide_eq_true. by exists "".
  - intros [d' ->]%IH. by exists (String a d').
Qed.

Lemma basename_None (b : string) : Str.mem sep b = false -> basename b = b.
Proof.
  intros Hb. unfold basename. rewrite PosixpathFacts.after_last_sep_None by done.
  by destruct b.
Qed.

Lemma basename_join (d b : string) :
  Str.mem sep b = false -> basename (join d b) = b.
Proof.
  intros Hb. unfold join. case_match; [by apply basename_None|].
  destruct (decide (d = "")) as [->|Hd]; [by apply basename_None|].
  rewrite bool_decide_false by done. simpl.
  destruct (endswith_sep d) eqn:Hend.
  - apply endswith_sep_snoc in Hend as [d' ->].
    rewrite StrFacts.app_assoc. simpl. by apply PosixpathFacts.basename_app.
  - simpl. by apply PosixpathFacts.basename_app.
Qed.

(** The new file name: it has no separator and is seven characters
    longer than the old one. *)
Lemma new_name (p name ext : string) :
  splitext (basename p) = (name, ext) ->
  Str.mem sep (name +:+ "_sorted" +:+ ext) = false /\
  String.length (name +:+ "_sorted" +:+ ext) = String.length (basename p) + 7.
Proof.
  intros Hsplit%splitext_join. pose proof (mem_sep_basename p) as Hmem.
  rewrite <-Hsplit in *. rewrite StrFacts.mem_app in Hmem.
  apply orb_false_elim in Hmem as [Hn He].
  rewrite !StrFacts.mem_app, !StrFacts.length_app, Hn, He. simpl. split; [done|]. lia.
Qed.

Lemma default_output_path_basename (p : string) :
  String.length (basename (default_output_path p)) = String.length (basename p) + 7.
Proof.
  unfold default_output_path.
  destruct (splitext (basename p)) as [name ext] eqn:Hsplit.
  destruct (new_name p name ext Hsplit) as [Hmem Hlen].
  by rewrite basename_join.
Qed.

Lemma rstrip_sep_nil (h : string) : rstrip_sep h = "" -> all_seps h = true.
Proof.
  induction h as [|a h IH]; simpl; [done|].
  destruct (rstrip_sep h); [|done]. case_decide; [|done].
  intros _. rewrite bool_decide_true by done. by apply IH.
Qed.

Lemma endswith_sep_rstrip (h : string) : endswith_sep (rstrip_sep h) = false.
Proof.
  induction h as [|a h IH]; simpl; [done|].
  destruct (rstrip_sep h) as [|b t] eqn:Ht.
  - case_decide; [done|]. simpl. by rewrite bool_decide_false.
  - done.
Qed.

(** What [dirname] can return: nothing, slashes only, or a path that does
    not end in a slash. *)
Lemma dirname_shape (p : string) :
  dirname p = "" \/
  (dirname p <> "" /\ all_seps (dirname p) = true) \/
  (dirname p <> "" /\ endswith_sep (dirname p) = false).
Proof.
  unfold dirname. set (h := Str.take (after_last_sep p) p).
  destruct (decide (h = "")) as [->|Hh]; [by left|].
  rewrite bool_decide_false by done. simpl.
  destruct (all_seps h) eqn:Hall; simpl; [by right; left|].
  right. right. split; [|apply endswith_sep_rstrip].
  intros Hnil%rstrip_sep_nil. congruence.
Qed.

Lemma dirname_join (d b : string) :
  d = "" \/ (d <> "" /\ all_seps d = true) \/ (d <> "" /\ endswith_sep d = false) ->
  Str.mem sep b = false -> b <> "" ->
  dirname (join d b) = d.
Proof.
  intros Hd Hb Hne. unfold join.
  assert (Str.startswith (String sep "") b = false) as ->.
  { destruct b as [|c b]; [done|]. simpl in *. case_decide; [done|].
    by rewrite decide_False. }
  destruct Hd as [->|[[Hd Hall]|[Hd Hend]]].
  - simpl. unfold dirname. by rewrite PosixpathFacts.after_last_sep_None.
  - rewrite bool_decide_false by done. simpl.
    rewrite (PosixpathFacts.all_seps_endswith d Hd Hall).
    destruct (endswith_sep_snoc d (PosixpathFacts.all_seps_endswith d Hd Hall))
      as [d' ->].
    unfold dirname. rewrite StrFacts.app_assoc. simpl.
    rewrite PosixpathFacts.after_last_sep_app by done.
    rewrite PosixpathFacts.snoc_app, <-(PosixpathFacts.length_snoc d' sep),
      StrFacts.take_app.
    by rewrite bool_decide_false, Hall by done.
  - rewrite bool_decide_false, Hend by done. simpl.
    by apply PosixpathFacts.dirname_app.
Qed.

Lemma splitext_loop_dots (n i dot : nat) (p : string) :
  splitext_loop n i dot p
  = if dots_only n i p then (p, "") else (Str.take dot p, Str.drop dot p).
Proof.
  revert i. induction n as [|n IH]; intros i; simpl; [done|].
  destruct (bool_decide _); simpl; [apply IH|done].
Qed.

Lemma char_at_app_l (i : nat) (b x : string) :
  i < String.length b -> char_at i (b +:+ x) = char_at i b.
Proof.
  unfold char_at. revert i. induction b as [|a b IH]; intros i Hi; simpl in *; [lia|].
  destruct i as [|i]; simpl.
  - by destruct b, x.
  - apply IH. lia.
Qed.

Lemma dots_only_app (n i : nat) (b x : string) :
  i + n <= String.length b -> dots_only n i (b +:+ x) = dots_only n i b.
Proof.
  revert i. induction n as [|n IH]; intros i Hi; simpl; [done|].
  rewrite char_at_app_l by lia. f_equal. apply IH. lia.
Qed.

Lemma rfind_lt (c : ascii) (p : string) (i : nat) :
  rfind c p = Some i -> i < String.length p.
Proof.
  revert i. induction p as [|a p IH]; intros i; simpl; [done|].
  destruct (rfind c p) as [j|].
  - intros [= <-]. specialize (IH j eq_refl). lia.
  - case_decide; [|done]. intros [= <-]. lia.
Qed.

Lemma rfind_Some_at (c : ascii) (p : string) (i : nat) :
  rfind c p = Some i -> Str.drop i p = String c (Str.drop (S i) p).
Proof.
  revert i. induction p as [|a p IH]; intros i; simpl; [done|].
  destruct (rfind c p) as [j|].
  - intros [= <-]. by apply IH.
  - case_decide; [|done]. by intros [= <-]; subst.
Qed.

Lemma all_dots_app (x y : string) :
  all_dots (x +:+ y) = all_dots x && all_dots y.
Proof. induction x as [|a x IH]; simpl; [done|]. by rewrite IH, andb_assoc. Qed.

(** The new name has the extension of the old one. *)
Lemma splitext_sorted (b name ext : string) :
  Str.mem sep b = false ->
  splitext b = (name, ext) ->
  splitext (name +:+ "_sorted" +:+ ext) = (name +:+ "_sorted", ext).
Proof.
  intros Hb. unfold splitext at 1.
  rewrite (PosixpathFacts.after_last_sep_None b Hb).
  destruct (rfind extsep b) as [dot|] eqn:Hdot.
  - cbn [Nat.leb]. rewrite Nat.sub_0_r, splitext_loop_dots.
    destruct (dots_only dot 0 b) eqn:Hdots.
    + intros [= <- <-]. rewrite StrFacts.app_nil_r. unfold splitext.
      rewrite PosixpathFacts.rfind_app. simpl. rewrite Hdot.
      rewrite PosixpathFacts.after_last_sep_None
        by (by rewrite StrFacts.mem_app, Hb).
      simpl. rewrite Nat.sub_0_r, splitext_loop_dots.
      pose proof (rfind_lt _ _ _ Hdot).
      by rewrite dots_only_app, Hdots by lia.
    + intros [= <- <-]. rewrite (rfind_Some_at _ _ _ Hdot).
      pose proof (take_drop dot b) as Hsplit.
      rewrite (rfind_Some_at _ _ _ Hdot) in Hsplit.
      pose proof (rfind_Some_after _ _ _ Hdot) as Htail.
      set (tail := Str.drop (S dot) b) in *.
      rewrite <-Hsplit, StrFacts.mem_app in Hb.
      apply orb_false_elim in Hb as [Hn He].
      rewrite <-StrFacts.app_assoc. apply PosixpathFacts.splitext_app.
      * by rewrite StrFacts.mem_app, Hn.
      * by simpl in He.
      * done.
      * rewrite all_dots_app. by rewrite andb_false_r.
  - intros [= <- <-]. rewrite StrFacts.app_nil_r. unfold splitext.
    rewrite PosixpathFacts.rfind_app. simpl. by rewrite Hdot.
Qed.

End DefaultPath.

(** X7: the destination the program chooses is never the source; it lies
    in the directory of the source and has the extension of the source.
    So a run without a destination argument never overwrites its source,
    whatever the environment does. *)
Theorem default_destination (csv_path : string) :
  default_output_path csv_path <> csv_path /\
  Posixpath.dirname (default_output_path csv_path) = Posixpath.dirname csv_path /\
  (Posixpath.splitext (Posixpath.basename (default_output_path csv_path))).2
  = (Posixpath.splitext (Posixpath.basename csv_path)).2 /\
  (forall w, files (create_sorted_copy csv_path None w).2 !! csv_path
             = files w !! csv_path).
Proof.
  assert (default_output_path csv_path <> csv_path) as Hne.
  { intros Heq. pose proof (DefaultPath.default_output_path_basename csv_path) as Hlen.
    rewrite Heq in Hlen. lia. }
  split; [done|]. split; [|split].
  - unfold default_output_path.
    destruct (Posixpath.splitext (Posixpath.basename csv_path)) as [name ext] eqn:Hsplit.
    destruct (DefaultPath.new_name csv_path name ext Hsplit) as [Hmem Hlen].
    apply DefaultPath.dirname_join; [apply DefaultPath.dirname_shape|done|].
    intros Hnil. rewrite Hnil in Hlen. simpl in Hlen. lia.
  - unfold default_output_path.
    destruct (Posixpath.splitext (Posixpath.basename csv_path)) as [name ext] eqn:Hsplit.
    destruct (DefaultPath.new_name csv_path name ext Hsplit) as [Hmem Hlen].
    rewrite DefaultPath.basename_join by done.
    by rewrite (DefaultPath.splitext_sorted _ _ _
                  (DefaultPath.mem_sep_basename csv_path) Hsplit).
  - intros w.
    destruct (create_sorted_copy_returns csv_path None w) as ([p|] & w' & Hrun);
      rewrite Hrun; simpl.
    + apply create_sorted_copy_success in Hrun
        as (? & ? & ? & ? & ? & -> & _ & _ & _ & _ & _ & -> & _).
      by rewrite lookup_insert_ne.
    + apply create_sorted_copy_failure in Hrun as [_ [->|(? & _ & _ & ->)]]; [done|].
      by rewrite lookup_insert_ne.
Qed.

(** ** Reading back what was written *)

Module StreamFacts.
Import Csv Stream.

Lemma feed_app (s1 s2 : string) (self : ReaderObj) :
  feed self (s1 +:+ s2) = (self' <-? feed self s1; feed self' s2).
Proof.
  revert self. induction s1 as [|c s1 IH]; intros self; simpl; [done|].
  destruct (parse_process_char self (Ch c)); simpl; [done|]. apply IH.
Qed.

Lemma parse_line_feed (line : string) (self : ReaderObj) :
  parse_line self line = (self' <-? feed self line; parse_process_char self' EOL).
Proof.
  revert self. induction line as [|c line IH]; intros self; simpl; [done|].
  destruct (parse_process_char self (Ch c)); simpl; [done|]. apply IH.
Qed.

Lemma list_go_cons (self : ReaderObj) (line : string) (lines : list string) :
  list_go self (line :: lines)
  = (self' <-? feed self line; end_line self' (fun self'' => list_go self'' lines)).
Proof.
  cbn [list_go]. rewrite parse_line_feed. unfold end_line.
  destruct (feed self line); simpl; [done|].
  by destruct (parse_process_char _ EOL).
Qed.

Lemma end_line_ext (self : ReaderObj) (k1 k2 : ReaderObj -> result (list (list string))) :
  (forall self', k1 self' = k2 self') -> end_line self k1 = end_line self k2.
Proof.
  intros Hk. unfold end_line. destruct (parse_process_char self EOL); simpl; [done|].
  case_decide; by rewrite Hk.
Qed.

Lemma stream_cons (self : ReaderObj) (m : mode) (c : ascii) (s : string) :
  m <> AfterCR ->
  stream self m (String c s)
  = (self' <-? parse_process_char self (Ch c);
     if decide (c = LF) then end_line self' (fun x => stream x LineStart s)
     else if decide (c = CR) then stream self' AfterCR s
     else stream self' MidLine s).
Proof. by destruct m. Qed.

Lemma stream_after_cr (self : ReaderObj) (c : ascii) (s : string) :
  stream self AfterCR (String c s)
  = if decide (c = LF) then stream self MidLine (String c s)
    else end_line self (fun x => stream x LineStart (String c s)).
Proof. done. Qed.

Lemma mode_of_cur (cur : string) : (if cur is "" then LineStart else MidLine) <> AfterCR.
Proof. by destruct cur. Qed.

Lemma mode_of_snoc (cur : string) (c : ascii) :
  (if cur +:+ String c "" is "" then LineStart else MidLine) = MidLine.
Proof. by destruct cur. Qed.

(** The two ways of driving the parser agree. *)
Lemma list_go_stream (s cur : string) (self : ReaderObj) :
  list_go self (readlines_go cur s)
  = (self' <-? feed self cur;
     stream self' (if cur is "" then LineStart else MidLine) s).
Proof.
  revert cur self. induction s as [|c s IH]; intros cur self.
  - destruct cur as [|a cur]; [done|].
    cbn [readlines_go]. rewrite list_go_cons.
    destruct (feed self (String a cur)); cbn [rbind]; [done|].
    by apply end_line_ext.
  - cbn [readlines_go].
    destruct (decide (c = LF)) as [->|Hlf].
    { rewrite list_go_cons, feed_app.
      destruct (feed self cur) as [|self1]; cbn [rbind]; [done|].
      rewrite stream_cons by apply mode_of_cur.
      cbn [feed]. destruct (parse_process_char self1 (Ch LF)); cbn [rbind]; [done|].
      rewrite decide_True by done.
      apply end_line_ext. intros self'. by rewrite IH. }
    destruct (decide (c = CR)) as [->|Hcr].
    { destruct s as [|c' s].
      - rewrite list_go_cons, feed_app.
        destruct (feed self cur) as [|self1]; cbn [rbind]; [done|].
        rewrite stream_cons by apply mode_of_cur.
        cbn [feed]. destruct (parse_process_char self1 (Ch CR)); cbn [rbind]; [done|].
        by rewrite decide_False, decide_True by done.
      - destruct (decide (c' = LF)) as [->|Hlf'].
        + specialize (IH (cur +:+ String CR "") self). cbn [readlines_go] in IH.
          rewrite decide_True in IH by done.
          rewrite StrFacts.app_assoc in IH. cbn [String.append] in IH. rewrite IH.
          rewrite feed_app, mode_of_snoc.
          destruct (feed self cur) as [|self1]; cbn [rbind]; [done|].
          rewrite stream_cons by apply mode_of_cur.
          cbn [feed]. destruct (parse_process_char self1 (Ch CR)); cbn [rbind]; [done|].
          rewrite decide_False, decide_True by done.
          rewrite stream_after_cr. by rewrite decide_True.
        + rewrite list_go_cons, feed_app.
          destruct (feed self cur) as [|self1]; cbn [rbind]; [done|].
          rewrite stream_cons by apply mode_of_cur.
          cbn [feed]. destruct (parse_process_char self1 (Ch CR)) as [|self2]; cbn [rbind]; [done|].
          rewrite decide_False, decide_True by done.
          rewrite stream_after_cr, decide_False by done.
          apply end_line_ext. intros self'. by rewrite (IH "" self'). }
    rewrite (IH (cur +:+ String c "") self), feed_app, mode_of_snoc.
    destruct (feed self cur) as [|self1]; cbn [rbind]; [done|].
    rewrite stream_cons by apply mode_of_cur.
    cbn [feed]. destruct (parse_process_char self1 (Ch c)); cbn [rbind]; [done|].
    by rewrite !decide_False by done.
Qed.


(** *** One field *)

Lemma escape_cons (c : ascii) (f : string) :
  escape (String c f)
  = if decide (c = quotechar) then String c (String c (escape f)) else String c (escape f).
Proof.
  unfold escape. simpl. destruct (join_append_data f) as [text quoted].
  case_decide; [done|]. by case_match.
Qed.

Lemma needs_quotes_cons (c : ascii) (f : string) :
  needs_quotes (String c f) = false ->
  c <> quotechar /\ c <> delimiter /\ c <> CR /\ c <> LF /\ needs_quotes f = false.
Proof.
  unfold needs_quotes. simpl. destruct (join_append_data f) as [text quoted].
  case_decide; [done|]. simpl.
  destruct (bool_decide (c = delimiter)) eqn:Hd; simpl; [done|].
  apply bool_decide_eq_false in Hd.
  repeat case_decide; simpl; try done.
  all: repeat split; congruence.
Qed.

Lemma bounded_cons (g : string) (c : ascii) (f : string) :
  bounded (g +:+ String c f) ->
  (N.of_nat (String.length g) < field_limit)%N /\ bounded ((g +:+ String c "") +:+ f).
Proof.
  unfold bounded. rewrite StrFacts.app_assoc. simpl.
  rewrite !StrFacts.length_app. simpl. lia.
Qed.

Lemma parse_add_char_ok (fs : list string) (g : string) (st : ParserState) (c : ascii) :
  (N.of_nat (String.length g) < field_limit)%N ->
  parse_add_char (Reader fs g st) c = inr (Reader fs (g +:+ String c "") st).
Proof.
  intros Hlen. unfold parse_add_char. simpl.
  by rewrite (proj2 (N.leb_gt _ _)) by done.
Qed.

Lemma stream_in_quotes (fs : list string) (g : string) (m : mode) (c : ascii) (s : string) :
  stream (Reader fs g IN_QUOTED_FIELD) m (String c s)
  = stream (Reader fs g IN_QUOTED_FIELD) LineStart (String c s).
Proof.
  destruct m; try done.
  rewrite stream_after_cr. by case_decide.
Qed.

Lemma stream_quoted_char (fs : list string) (g : string) (m : mode) (c : ascii) (s : string) :
  c <> quotechar -> (N.of_nat (String.length g) < field_limit)%N ->
  stream (Reader fs g IN_QUOTED_FIELD) m (String c s)
  = stream (Reader fs (g +:+ String c "") IN_QUOTED_FIELD) (mode_after c) s.
Proof.
  intros Hq Hlen. rewrite stream_in_quotes, stream_cons by done.
  unfold parse_process_char. cbn [state]. rewrite decide_False by done.
  rewrite parse_add_char_ok by done. cbn [rbind]. unfold mode_after.
  by repeat case_decide.
Qed.

Lemma stream_quoted_quote (fs : list string) (g : string) (m : mode) (s : string) :
  (N.of_nat (String.length g) < field_limit)%N ->
  stream (Reader fs g IN_QUOTED_FIELD) m (String quotechar (String quotechar s))
  = stream (Reader fs (g +:+ String quotechar "") IN_QUOTED_FIELD) MidLine s.
Proof.
  intros Hlen. rewrite stream_in_quotes, stream_cons by done.
  unfold parse_process_char at 1. cbn [state]. rewrite decide_True by done.
  cbn [rbind]. rewrite !decide_False by done.
  rewrite stream_cons by done.
  unfold parse_process_char, set_state. cbn [state fields field].
  rewrite decide_True by done.
  rewrite parse_add_char_ok by done. cbn [rbind].
  by rewrite !decide_False by done.
Qed.

Lemma stream_closing_quote (fs : list string) (g : string) (m : mode) (s : string) :
  stream (Reader fs g IN_QUOTED_FIELD) m (String quotechar s)
  = stream (Reader fs g QUOTE_IN_QUOTED_FIELD) MidLine s.
Proof.
  rewrite stream_in_quotes, stream_cons by done.
  unfold parse_process_char at 1. cbn [state]. rewrite decide_True by done.
  cbn [rbind]. by rewrite !decide_False by done.
Qed.

(** Inside the quotes the text of the field comes back, line breaks and
    commas included. *)
Lemma stream_quoted (f g : string) (fs : list string) (m : mode) (rest : string) :
  bounded (g +:+ f) ->
  stream (Reader fs g IN_QUOTED_FIELD) m (escape f +:+ String quotechar rest)
  = stream (Reader fs (g +:+ f) QUOTE_IN_QUOTED_FIELD) MidLine rest.
Proof.
  revert g m. induction f as [|c f IH]; intros g m Hb.
  - rewrite StrFacts.app_nil_r. apply stream_closing_quote.
  - apply bounded_cons in Hb as [Hlen Hb].
    rewrite escape_cons. case_decide as Hc.
    + subst c. cbn [String.append]. rewrite stream_quoted_quote by done.
      rewrite IH by done. by rewrite StrFacts.app_assoc.
    + cbn [String.append]. rewrite stream_quoted_char by done.
      rewrite IH by done. by rewrite StrFacts.app_assoc.
Qed.

(** Outside quotes an ordinary field is read as it stands. *)
Lemma stream_unquoted (f g : string) (fs : list string) (st : ParserState)
    (m : mode) :
  needs_quotes f = false ->
  st = START_FIELD \/ st = IN_FIELD -> m <> AfterCR ->
  bounded (g +:+ f) ->
  exists st' m', (st' = START_FIELD \/ st' = IN_FIELD) /\ m' <> AfterCR /\
    forall rest, stream (Reader fs g st) m (f +:+ rest)
                 = stream (Reader fs (g +:+ f) st') m' rest.
Proof.
  revert g st m. induction f as [|c f IH]; intros g st m Hq Hst Hm Hb.
  - exists st, m. rewrite StrFacts.app_nil_r. by repeat split.
  - apply needs_quotes_cons in Hq as (Hc1 & Hc2 & Hc3 & Hc4 & Hq).
    apply bounded_cons in Hb as [Hlen Hb].
    destruct (IH (g +:+ String c "") IN_FIELD MidLine) as (st' & m' & Hst' & Hm' & Heq);
      [done|by right|done|done|].
    exists st', m'. split; [done|]. split; [done|]. intros rest.
    replace (g +:+ String c f) with ((g +:+ String c "") +:+ f)
      by (by rewrite StrFacts.app_assoc).
    rewrite <-Heq. cbn [String.append]. rewrite stream_cons by done.
    assert (is_newline c = false) as Hnl.
    { unfold is_newline. by rewrite !bool_decide_false by done. }
    assert (parse_process_char (Reader fs g st) (Ch c)
            = inr (Reader fs (g +:+ String c "") IN_FIELD)) as ->.
    { destruct Hst as [-> | ->]; unfold parse_process_char, start_field; cbn [state];
        rewrite Hnl, ?decide_False by done;
        by rewrite parse_add_char_ok by done. }
    cbn [rbind]. by rewrite !decide_False by done.
Qed.

(** A field as the writer renders it, from the start of a field. *)
Lemma stream_field (f : string) (fs : list string) (m : mode) :
  bounded f -> m <> AfterCR ->
  exists st' m',
    (st' = START_FIELD \/ st' = IN_FIELD \/ st' = QUOTE_IN_QUOTED_FIELD) /\
    m' <> AfterCR /\
    forall rest, stream (Reader fs "" START_FIELD) m (render f +:+ rest)
                 = stream (Reader fs f st') m' rest.
Proof.
  intros Hb Hm. unfold render. destruct (needs_quotes f) eqn:Hq.
  - exists QUOTE_IN_QUOTED_FIELD, MidLine. split; [auto|]. split; [done|].
    intros rest. cbn [String.append]. rewrite stream_cons by done.
    unfold parse_process_char, start_field. cbn [state].
    replace (is_newline quotechar) with false by done.
    rewrite decide_True by done. cbn [rbind]. rewrite !decide_False by done.
    unfold set_state. cbn [fields field].
    rewrite StrFacts.app_assoc. cbn [String.append].
    by rewrite stream_quoted.
  - destruct (stream_unquoted f "" fs START_FIELD m) as (st' & m' & Hst' & Hm' & Heq);
      [done|by left|done|done|].
    exists st', m'. split; [tauto|]. by split.
Qed.

(** *** The separators *)

Lemma stream_delimiter (fs : list string) (g : string) (st : ParserState)
    (m : mode) (rest : string) :
  st = START_FIELD \/ st = IN_FIELD \/ st = QUOTE_IN_QUOTED_FIELD ->
  m <> AfterCR ->
  stream (Reader fs g st) m (String delimiter rest)
  = stream (Reader (fs ++ [g]) "" START_FIELD) MidLine rest.
Proof.
  intros Hst Hm. rewrite stream_cons by done.
  by destruct Hst as [-> | [-> | ->]].
Qed.

Lemma stream_lineterminator (fs : list string) (g : string) (st : ParserState)
    (m : mode) (rest : string) :
  st = START_FIELD \/ st = IN_FIELD \/ st = QUOTE_IN_QUOTED_FIELD ->
  m <> AfterCR ->
  stream (Reader fs g st) m (lineterminator +:+ rest)
  = (rows <-? stream parse_reset LineStart rest; inr ((fs ++ [g]) :: rows)).
Proof.
  intros Hst Hm. unfold lineterminator. cbn [String.append].
  rewrite stream_cons by done.
  by destruct Hst as [-> | [-> | ->]].
Qed.

(** *** One record, and all of them *)

Lemma stream_fields (row : list string) (f : string) (fs : list string)
    (m : mode) (rest : string) :
  bounded f -> Forall bounded row -> m <> AfterCR ->
  stream (Reader fs "" START_FIELD) m
    (render f +:+ tail_text row +:+ lineterminator +:+ rest)
  = (rows <-? stream parse_reset LineStart rest; inr ((fs ++ f :: row) :: rows)).
Proof.
  revert f fs m. induction row as [|f' row IH]; intros f fs m Hf Hrow Hm.
  - destruct (stream_field f fs m) as (st' & m' & Hst' & Hm' & ->); [done..|].
    cbn [tail_text String.append]. by apply stream_lineterminator.
  - apply Forall_cons in Hrow as [Hf' Hrow].
    destruct (stream_field f fs m) as (st' & m' & Hst' & Hm' & ->); [done..|].
    cbn [tail_text String.append]. rewrite stream_delimiter by done.
    rewrite StrFacts.app_assoc, IH by done.
    by rewrite <-app_assoc.
Qed.

Lemma join_append_render (rec : string) (n : nat) (f : string) :
  join_append rec n f false
  = rec +:+ (if n is 0 then "" else String delimiter "") +:+ render f.
Proof.
  unfold join_append, render, needs_quotes, escape.
  destruct (join_append_data f) as [text quoted] eqn:Hf. simpl.
  destruct quoted; [done|]. do 2 f_equal.
  clear rec n. revert text Hf. induction f as [|c f IH]; intros text; simpl.
  - by intros [= <-].
  - destruct (join_append_data f) as [text' quoted'].
    repeat case_match; intros [= <- ->]; try done.
    all: by rewrite (IH text').
Qed.

Lemma join_fields_tail (row : list string) (rec : string) (n : nat) :
  join_fields rec (S n) row = rec +:+ tail_text row.
Proof.
  revert rec n. induction row as [|f row IH]; intros rec n; simpl.
  - by rewrite StrFacts.app_nil_r.
  - rewrite IH, join_append_render.
    rewrite !StrFacts.app_assoc. by cbn [String.append].
Qed.

Lemma join_fields_cons (f : string) (row : list string) :
  join_fields "" 0 (f :: row) = render f +:+ tail_text row.
Proof. simpl. by rewrite join_fields_tail, join_append_render. Qed.

Lemma stream_first_char (c : ascii) (s : string) (m : mode) :
  is_newline c = false -> m <> AfterCR ->
  stream parse_reset m (String c s) = stream (Reader [] "" START_FIELD) m (String c s).
Proof.
  intros Hc Hm. rewrite !stream_cons by done.
  assert (parse_process_char parse_reset (Ch c)
          = parse_process_char (Reader [] "" START_FIELD) (Ch c)) as ->; [|done].
  unfold parse_process_char. cbn [state parse_reset]. by rewrite Hc.
Qed.

Lemma render_first_char (f rest : string) :
  match render f +:+ String delimiter rest with
  | String c _ => is_newline c = false
  | EmptyString => False
  end.
Proof.
  unfold render. destruct (needs_quotes f) eqn:Hq; [done|].
  destruct f as [|c f]; [done|].
  apply needs_quotes_cons in Hq as (_ & _ & Hcr & Hlf & _).
  cbn [String.append]. unfold is_newline. by rewrite !bool_decide_false by done.
Qed.

Lemma render_empty (f : string) : render f = "" -> f = "".
Proof. unfold render. by destruct (needs_quotes f). Qed.

Lemma render_nonempty_first (f rest : string) :
  render f <> "" ->
  match render f +:+ rest with
  | String c _ => is_newline c = false
  | EmptyString => False
  end.
Proof.
  unfold render. destruct (needs_quotes f) eqn:Hq; [done|].
  destruct f as [|c f]; [done|]. intros _.
  apply needs_quotes_cons in Hq as (_ & _ & Hcr & Hlf & _).
  cbn [String.append]. unfold is_newline. by rewrite !bool_decide_false by done.
Qed.

Lemma str_app_eq_nil (s1 s2 : string) : s1 +:+ s2 = "" -> s1 = "" /\ s2 = "".
Proof. by destruct s1. Qed.

(** A record the writer wrote is read back as it was. *)
Lemma stream_writerow (row : list string) (rest : string) :
  Forall bounded row ->
  stream parse_reset LineStart (writerow row +:+ rest)
  = (rows <-? stream parse_reset LineStart rest; inr (row :: rows)).
Proof.
  intros Hrow. destruct row as [|f row]; [done|].
  apply Forall_cons in Hrow as [Hf Hrow].
  unfold writerow. rewrite join_fields_cons.
  replace (0 <? length (f :: row)) with true by done. cbn [andb].
  case_bool_decide as Hempty.
  - apply str_app_eq_nil in Hempty as [Hf0%render_empty Hrow0].
    destruct row; [|done]. by subst f.
  - rewrite !StrFacts.app_assoc.
    assert (match render f +:+ tail_text row +:+ lineterminator +:+ rest with
            | String c _ => is_newline c = false
            | EmptyString => False
            end) as Hfirst.
    { destruct (decide (render f = "")) as [Hr|Hr].
      - rewrite Hr in *. cbn [String.append] in *.
        destruct row as [|f' row]; [done|]. cbn [tail_text String.append]. done.
      - by apply render_nonempty_first. }
    destruct (render f +:+ tail_text row +:+ lineterminator +:+ rest)
      as [|c s] eqn:Htext; [done|].
    rewrite stream_first_char by done. rewrite <-Htext.
    by rewrite stream_fields.
Qed.

Lemma stream_writerows (rows : list (list string)) :
  Forall (Forall bounded) rows ->
  stream parse_reset LineStart (writerows rows) = inr rows.
Proof.
  induction rows as [|row rows IH]; intros Hb; [done|].
  apply Forall_cons in Hb as [Hrow Hrows]. cbn [writerows].
  rewrite stream_writerow by done. by rewrite IH.
Qed.


(** *** The table *)

Lemma list_go_iternext (lines : list string) (self : ReaderObj) :
  list_go self lines
  = (o <-? iternext_go self lines;
     match o with
     | None => inr []
     | Some (r, rest) => rows <-? list_go parse_reset rest; inr (r :: rows)
     end).
Proof.
  revert self. induction lines as [|line lines IH]; intros self; simpl.
  - by case_match.
  - destruct (parse_line self line) as [|self']; simpl; [done|].
    case_decide; [done|]. apply IH.
Qed.

(** The header and the rows are the records of the whole file. *)
Lemma read_table_list (data : string) :
  read_table data
  = (rows <-? list_reader (readlines data);
     match rows with
     | [] => inl StopIteration
     | header :: rows' => inr (header, rows')
     end).
Proof.
  unfold read_table, next, list_reader. rewrite list_go_iternext.
  destruct (iternext_go parse_reset (readlines data)) as [|[[r rest]|]]; simpl; [done| |done].
  unfold list_reader. by destruct (list_go parse_reset rest).
Qed.

Lemma read_table_stream (data : string) :
  read_table data
  = (rows <-? stream parse_reset LineStart data;
     match rows with
     | [] => inl StopIteration
     | header :: rows' => inr (header, rows')
     end).
Proof.
  rewrite read_table_list. unfold list_reader, readlines.
  by rewrite list_go_stream.
Qed.

Lemma read_table_written (header : list string) (rows : list (list string)) :
  Forall bounded header -> Forall (Forall bounded) rows ->
  read_table (writerow header +:+ writerows rows) = inr (header, rows).
Proof.
  intros Hh Hrows. rewrite read_table_stream.
  change (writerow header +:+ writerows rows) with (writerows (header :: rows)).
  rewrite stream_writerows; [done|]. by constructor.
Qed.

(** *** What the reader hands out fits the limit *)

Lemma fits_reset : fits parse_reset.
Proof. split; [constructor|]. by vm_compute. Qed.

Lemma fits_set_state (st : ParserState) (self : ReaderObj) :
  fits self -> fits (set_state st self).
Proof. done. Qed.

Lemma fits_save_field (self : ReaderObj) : fits self -> fits (parse_save_field self).
Proof.
  intros [Hfs Hf]. split; simpl; [|by vm_compute].
  apply Forall_app. split; [done|]. by constructor.
Qed.

Lemma fits_add_char (self self' : ReaderObj) (c : ascii) :
  fits self -> parse_add_char self c = inr self' -> fits self'.
Proof.
  intros [Hfs Hf]. unfold parse_add_char.
  destruct (_ <=? _)%N eqn:Hlen; [done|]. intros [= <-].
  split; [done|]. simpl. unfold bounded in *.
  rewrite StrFacts.length_app. simpl. apply N.leb_gt in Hlen. lia.
Qed.

Lemma fits_process_char (self self' : ReaderObj) (c : input) :
  fits self -> parse_process_char self c = inr self' -> fits self'.
Proof.
  intros Hfits. unfold parse_process_char, start_field.
  pose proof (fits_save_field _ Hfits) as Hsave.
  destruct (state self), c as [a|]; repeat case_match; simpl;
    try (intros [= <-]; first [exact Hfits | exact Hsave]);
    try done;
    try (intros Hadd; eapply fits_add_char; [|exact Hadd]; exact Hfits).
  all: destruct (parse_add_char _ a) as [|self''] eqn:Hadd; simpl; [done|];
    intros [= <-]; apply fits_set_state;
    eapply fits_add_char; [|exact Hadd]; exact Hfits.
Qed.

Lemma fits_parse_line (line : string) (self self' : ReaderObj) :
  fits self -> parse_line self line = inr self' -> fits self'.
Proof.
  revert self. induction line as [|c line IH]; intros self Hfits; simpl.
  - by apply fits_process_char.
  - destruct (parse_process_char self (Ch c)) as [|self1] eqn:H1; simpl; [done|].
    apply IH. by eapply fits_process_char.
Qed.

Lemma fits_list_go (lines : list string) (self : ReaderObj) (rows : list (list string)) :
  fits self -> list_go self lines = inr rows -> Forall (Forall bounded) rows.
Proof.
  revert self rows. induction lines as [|line lines IH]; intros self rows Hfits; simpl.
  - case_match; intros [= <-]; [|constructor].
    constructor; [|constructor]. by apply fits_save_field.
  - destruct (parse_line self line) as [|self1] eqn:H1; simpl; [done|].
    apply fits_parse_line in H1; [|done].
    case_decide; [|by apply IH].
    destruct (list_go parse_reset lines) as [|rows'] eqn:Hrest; simpl; [done|].
    intros [= <-]. constructor; [apply H1|].
    eapply IH; [apply fits_reset|done].
Qed.

Lemma read_table_bounded (data : string) (header : list string)
    (rows : list (list string)) :
  read_table data = inr (header, rows) ->
  Forall bounded header /\ Forall (Forall bounded) rows.
Proof.
  rewrite read_table_list. unfold list_reader.
  destruct (list_go parse_reset (readlines data)) as [|rows'] eqn:Hgo; simpl; [done|].
  apply fits_list_go in Hgo; [|apply fits_reset].
  destruct rows' as [|h rows']; [done|]. intros [= <- <-].
  by apply Forall_cons.
Qed.

End StreamFacts.

(** ** Which tables can be read *)

Module ReadFacts.
Import Csv Stream StreamFacts.

Lemma step_char (self : ReaderObj) (c : ascii) :
  state self <> EAT_CRNL ->
  match parse_process_char self (Ch c) with
  | inl e => e = csv_Error /\ (field_limit <= N.of_nat (String.length (field self)))%N
  | inr self' =>
      String.length (field self') <= S (String.length (field self)) /\
      if is_newline c
      then state self' = EAT_CRNL \/ state self' = IN_QUOTED_FIELD
      else state self' <> EAT_CRNL
  end.
Proof.
  intros Hst. unfold parse_process_char, start_field, parse_add_char.
  destruct self as [fs f st]. simpl in *.
  destruct (field_limit <=? N.of_nat (String.length f))%N eqn:Hlen;
    [apply N.leb_le in Hlen|];
    destruct st, (is_newline c) eqn:Hnl; try done;
    repeat case_decide; subst; simpl; rewrite ?StrFacts.length_app; simpl;
    try done; try (split; [lia|]; auto; done).
Qed.

Lemma step_eol (self : ReaderObj) :
  exists self', parse_process_char self EOL = inr self' /\
    String.length (field self') <= String.length (field self) /\
    (state self' = START_RECORD \/
     state self' = IN_QUOTED_FIELD /\ self' = self).
Proof.
  destruct self as [fs f []]; eexists; (split; [done|]); simpl; split; auto with lia.
Qed.

(** A run of the reader over a text: it fails only with [csv.Error], and
    only when the text is longer than the field limit leaves room for;
    and where there is anything to read there is a record. *)
Lemma stream_runs (s : string) (self : ReaderObj) (m : mode) :
  (m = AfterCR -> state self = EAT_CRNL \/ state self = IN_QUOTED_FIELD) ->
  (m <> AfterCR -> state self <> EAT_CRNL) ->
  match stream self m s with
  | inl e =>
      e = csv_Error /\
      (field_limit < N.of_nat (String.length (field self) + String.length s))%N
  | inr rows =>
      s <> "" \/ m <> LineStart \/ state self = IN_QUOTED_FIELD -> rows <> []
  end.
Proof.
  revert self m. induction s as [|c s IH]; intros self m Hcr Hmid.
  - assert (match finish self with
            | inl _ => False
            | inr rows => state self = IN_QUOTED_FIELD -> rows <> []
            end) as Hfinish.
    { unfold finish. destruct (bool_decide (state self = IN_QUOTED_FIELD)) eqn:Hq.
      - by rewrite orb_true_r.
      - apply bool_decide_eq_false in Hq. rewrite orb_false_r.
        destruct (negb _); congruence. }
    assert (match end_line self finish with
            | inl _ => False
            | inr rows => rows <> []
            end) as Hend.
    { unfold end_line. destruct (step_eol self) as (self' & -> & _ & Hst). simpl.
      destruct Hst as [Hst|[Hst ->]].
      - rewrite decide_True by done. by vm_compute.
      - assert (state self <> START_RECORD) by congruence.
        rewrite decide_False by done.
        destruct (finish self); [done|]. by apply Hfinish. }
    destruct m; simpl.
    + destruct (finish self); [done|]. intros [?|[?|?]]; [done..|]. by apply Hfinish.
    + by destruct (end_line self finish).
    + by destruct (end_line self finish).
  - assert (forall self m, m <> AfterCR -> state self <> EAT_CRNL ->
      match stream self m (String c s) with
      | inl e =>
          e = csv_Error /\
          (field_limit < N.of_nat (String.length (field self) + S (String.length s)))%N
      | inr rows => rows <> []
      end) as Hcont.
    { clear self m Hcr Hmid. intros self m Hm Hst.
      rewrite stream_cons by done.
      pose proof (step_char self c Hst) as Hstep.
      destruct (parse_process_char self (Ch c)) as [e|self1]; simpl.
      { split; [apply Hstep|]. lia. }
      destruct Hstep as [Hlen Hstate].
      destruct (decide (c = LF)) as [->|Hlf].
      { unfold end_line. destruct (step_eol self1) as (self2 & -> & Hlen2 & Hst2). simpl.
        destruct Hst2 as [Hst2|[Hst2 ->]].
        - rewrite decide_True by done.
          specialize (IH parse_reset LineStart).
          destruct (stream parse_reset LineStart s); simpl; [|done].
          destruct IH as [-> Hb]; [done..|]. simpl in Hb. split; [done|]. lia.
        - assert (state self1 <> START_RECORD) by congruence.
          rewrite decide_False by done.
          specialize (IH self1 LineStart).
          destruct (stream self1 LineStart s).
          + destruct IH as [-> Hb]; [done|congruence|]. split; [done|]. lia.
          + apply IH; [done|congruence|auto]. }
      destruct (decide (c = CR)) as [->|Hcr].
      { specialize (IH self1 AfterCR).
        destruct (stream self1 AfterCR s).
        - destruct IH as [-> Hb]; [done..|]. split; [done|]. lia.
        - apply IH; [done|done|auto]. }
      assert (is_newline c = false) as Hnl.
      { unfold is_newline. by rewrite !bool_decide_false by done. }
      rewrite Hnl in Hstate.
      specialize (IH self1 MidLine).
      destruct (stream self1 MidLine s).
      - destruct IH as [-> Hb]; [done..|]. split; [done|]. lia.
      - apply IH; [done|done|auto]. }
    cbn [String.length].
    assert (forall self m, m <> AfterCR -> state self <> EAT_CRNL ->
      match stream self m (String c s) with
      | inl e =>
          e = csv_Error /\
          (field_limit < N.of_nat (String.length (field self) + S (String.length s)))%N
      | inr rows =>
          String c s <> "" \/ m <> LineStart \/ state self = IN_QUOTED_FIELD ->
          rows <> []
      end) as Hcont'.
    { intros self' m' Hm' Hst'. specialize (Hcont self' m' Hm' Hst').
      destruct (stream self' m' (String c s)); [done|by intros _]. }
    destruct m; [apply Hcont'; [done|by apply Hmid]..|].
    rewrite stream_after_cr.
    destruct (decide (c = LF)) as [->|Hlf].
    + destruct Hcr as [Hst|Hst]; [done| |].
      2: { specialize (Hcont self MidLine).
           destruct (stream self MidLine (String LF s)); [|intros _];
             apply Hcont; congruence. }
      rewrite stream_cons by done.
      unfold parse_process_char. rewrite Hst.
      replace (is_newline LF) with true by done. simpl.
      unfold end_line, parse_process_char. rewrite Hst. simpl.
      specialize (IH parse_reset LineStart).
      destruct (stream parse_reset LineStart s); simpl; [|done].
      destruct IH as [-> Hb]; [done..|]. simpl in Hb. split; [done|]. lia.
    + unfold end_line. destruct (step_eol self) as (self2 & -> & Hlen2 & Hst2).
      cbn [rbind].
      destruct Hst2 as [Hst2|[Hst2 ->]].
      * rewrite decide_True by done.
        specialize (Hcont parse_reset LineStart).
        destruct (stream parse_reset LineStart (String c s)); cbn [rbind]; [|done].
        destruct Hcont as [-> Hb]; [done..|]. simpl in Hb. split; [done|]. lia.
      * assert (state self <> START_RECORD) by congruence.
        rewrite decide_False by done.
        specialize (Hcont self LineStart).
        destruct (stream self LineStart (String c s)).
        -- apply Hcont; [done|congruence].
        -- intros _. apply Hcont; [done|congruence].
Qed.

(** Reading fails on an empty file, and on a file longer than the field
    limit; on nothing else. *)
Lemma read_table_fails (data : string) (e : exn) :
  read_table data = inl e ->
  e = StopIteration /\ data = "" \/
  e = csv_Error /\ (field_limit < N.of_nat (String.length data))%N.
Proof.
  rewrite read_table_stream.
  pose proof (stream_runs data parse_reset LineStart ltac:(done) ltac:(done)) as Hrun.
  destruct (stream parse_reset LineStart data) as [e'|rows]; simpl.
  - intros [= <-]. right. by apply Hrun.
  - destruct rows as [|header rows]; [|done]. intros [= <-]. left. split; [done|].
    destruct data; [done|]. exfalso. apply Hrun; [by left|done].
Qed.

End ReadFacts.

(** ** Sorting what is sorted *)

Module SortedTwice.
Import Sorted.

Section Twice.
Context {A K : Type} `{EqDecision K} (ltb : K -> K -> bool).
Hypothesis ltb_irrefl : forall x, ltb x x = false.
Hypothesis ltb_trans :
  forall x y z, ltb x y = true -> ltb y z = true -> ltb x z = true.
Hypothesis ltb_total :
  forall x y, ltb x y = false -> ltb y x = false -> x = y.
Context (key : A -> result K).

Lemma insort_last (x : K * A) (l : list (K * A)) :
  Forall (fun y => key_le ltb y x) l -> insort ltb x l = l ++ [x].
Proof.
  induction 1 as [|y l Hy _ IH]; simpl; [done|].
  unfold key_le in Hy. by rewrite Hy, IH.
Qed.

Lemma binarysort_sorted (l acc : list (K * A)) :
  StronglySorted (key_le ltb) (acc ++ l) -> binarysort ltb acc l = acc ++ l.
Proof.
  revert acc. induction l as [|x l IH]; intros acc Hsorted; simpl.
  - by rewrite app_nil_r.
  - rewrite insort_last.
    + rewrite IH; rewrite <-app_assoc; done.
    + apply Forall_forall. intros y Hy.
      apply (StronglySorted_app_1_elem_of _ _ _ _ _ Hsorted); [done|by left].
Qed.

Lemma sort_sorted (l : list (K * A)) :
  StronglySorted (key_le ltb) l -> sort ltb l = l.
Proof. intros Hsorted. by apply (binarysort_sorted l []). Qed.

Lemma decorate_decorated (kl : list (K * A)) :
  decorated key kl -> decorate key (kl.*2) = inr kl.
Proof.
  induction 1 as [|[k a] kl Hk _ IH]; [done|].
  rewrite fmap_cons. cbn [decorate snd fst] in *.
  rewrite Hk. cbn [rbind]. by rewrite IH.
Qed.

(** [sorted] gives back a list that it leaves as it is. *)
Lemma sorted_idempotent (l out : list A) :
  sorted ltb key true l = inr out -> sorted ltb key true out = inr out.
Proof.
  intros (kl & [_ Hdec]%SortedFacts.decorate_inr & ->)%SortedFacts.sorted_reverse_inv.
  unfold sorted. rewrite decorate_decorated.
  - simpl. rewrite reverse_involutive.
    rewrite (sort_sorted (sort ltb (reverse kl)));
      [done|by apply SortedFacts.sort_StronglySorted].
  - unfold decorated in *.
    by rewrite reverse_Permutation, SortedFacts.sort_Permutation, reverse_Permutation.
Qed.

End Twice.
End SortedTwice.

Lemma kept_all (rows : list (list string)) :
  Forall (fun row => check_row row = inr true) rows -> kept rows = rows.
Proof.
  unfold kept. induction 1 as [|row rows Hrow _ IH]; [done|].
  by rewrite filter_cons_True, IH.
Qed.

Lemma skipped_none (rows : list (list string)) :
  Forall (fun row => check_row row = inr true) rows -> skipped rows = [].
Proof.
  unfold skipped, row_raises. induction 1 as [|row rows Hrow _ IH]; [done|].
  rewrite filter_cons_False; [done|]. by rewrite Hrow.
Qed.

Lemma newest_first_accepted (rows : list (list string)) :
  Forall (fun row => check_row row = inr true) (newest_first rows).
Proof.
  pose proof (newest_first_sorted rows) as Hperm%SortedFacts.sorted_Permutation.
  rewrite Hperm. unfold kept. apply Forall_forall.
  by intros row [Hrow _]%list_elem_of_filter.
Qed.

Lemma newest_first_twice (rows : list (list string)) :
  newest_first (newest_first rows) = newest_first rows.
Proof.
  pose proof (newest_first_sorted rows) as Hsort.
  unfold newest_first at 1.
  rewrite kept_all by apply newest_first_accepted.
  by rewrite (SortedTwice.sorted_idempotent Datetime.ltb DatetimeFacts.ltb_irrefl
                DatetimeFacts.ltb_trans DatetimeFacts.ltb_total _ _ _ Hsort).
Qed.

Lemma newest_first_bounded (rows : list (list string)) :
  Forall (Forall Stream.bounded) rows ->
  Forall (Forall Stream.bounded) (newest_first rows).
Proof.
  intros Hrows.
  pose proof (newest_first_sorted rows) as Hperm%SortedFacts.sorted_Permutation.
  rewrite Hperm. unfold kept. apply Forall_forall.
  intros row [_ Hrow]%list_elem_of_filter.
  by apply (proj1 (Forall_forall _ _) Hrows).
Qed.

(** ** The copy as a source *)

(** X8: what [csv.writer] writes, [csv.reader] reads back: a table whose
    fields are within the field limit of the reader comes back field for
    field, whatever commas, quotes and line breaks the fields hold, empty
    fields and empty records included. *)
Theorem written_table_reads_back (header : list string) (rows : list (list string)) :
  Forall Stream.bounded header -> Forall (Forall Stream.bounded) rows ->
  read_table (Csv.writerow header +:+ Csv.writerows rows) = inr (header, rows).
Proof. apply StreamFacts.read_table_written. Qed.

Lemma written_table_reads_back_witness :
  let header := ["CREATED"; "a,b"; String Csv.quotechar "q"] in
  let rows := [[""]; []; ["x" +:+ Sample.LF +:+ "y"; ""; "z" +:+ Sample.CRLF]] in
  read_table (Csv.writerow header +:+ Csv.writerows rows) = inr (header, rows).
Proof.
  apply written_table_reads_back; repeat constructor; by vm_compute.
Defined.

(** X9: no field that the reader hands out is longer than the field
    limit, so the table a run has read is one that can be written and
    read again. *)
Theorem fields_fit_the_limit (data : string) (header : list string)
    (rows : list (list string)) :
  read_table data = inr (header, rows) ->
  Forall Stream.bounded header /\ Forall (Forall Stream.bounded) rows /\
  read_table (Csv.writerow header +:+ Csv.writerows rows) = inr (header, rows).
Proof.
  intros [Hh Hrows]%StreamFacts.read_table_bounded.
  split; [done|]. split; [done|]. by apply StreamFacts.read_table_written.
Qed.

Lemma fields_fit_the_limit_witness :
  let header := ["CREATED"; "VAL"] in
  let rows := [["2025/05/03 10:00:00 (Sat)"; "A"]; ["2025/05/04 09:00:00 (Sun)"; "B"]] in
  Forall Stream.bounded header /\ Forall (Forall Stream.bounded) rows /\
  read_table (Csv.writerow header +:+ Csv.writerows rows) = inr (header, rows).
Proof.
  apply (fields_fit_the_limit Sample.log). by vm_compute.
Defined.

(** X10: filtering and sorting the rows that were filtered and sorted
    changes nothing, and prints nothing. *)
Theorem newest_first_is_idempotent (rows : list (list string)) :
  newest_first (newest_first rows) = newest_first rows /\
  kept (newest_first rows) = newest_first rows /\
  skipped (newest_first rows) = [] /\
  silent (newest_first rows) = [].
Proof.
  split; [apply newest_first_twice|].
  split; [apply kept_all, newest_first_accepted|].
  split; [apply skipped_none, newest_first_accepted|].
  unfold silent. apply SortedFacts.filter_none.
  eapply Forall_impl; [apply newest_first_accepted|].
  intros row Hrow. simpl. by rewrite Hrow.
Qed.

(** X11: the sorted copy is a fixed point.  After a successful run in an
    environment that lets every call through, a run that takes the copy
    as its source and writes elsewhere succeeds, skips no row, reports the
    same number of records and leaves at its destination the very text of
    the copy. *)
Theorem sorted_copy_is_a_fixed_point (csv_path : string) (output_path : option string)
    (w w' : world) (p p2 : string) :
  faults w = [] ->
  create_sorted_copy csv_path output_path w = (inr (Some p), w') ->
  p2 <> p ->
  exists text n,
    files w' !! p = Some text /\
    last (stdout w') = Some (msg_success n p) /\
    create_sorted_copy p (Some p2) w'
    = (inr (Some p2),
       World (<[p2 := text]> (files w')) (stdout w' ++ [msg_success n p2]) []).
Proof.
  intros Hq Hrun Hp2.
  pose proof Hrun as (data & header & reader & rows & body & -> & Hne & Hsrc & _)
    %create_sorted_copy_success.
  rewrite (create_sorted_copy_quiet_run _ _ _ data Hq Hsrc Hne) in Hrun.
  cbv zeta in Hrun.
  destruct (read_table data) as [e|[header' rows']] eqn:Hread; [done|].
  injection Hrun as <-.
  set (dst := destination csv_path output_path) in *.
  set (text := Csv.writerow header' +:+ Csv.writerows (newest_first rows')).
  exists text, (length (newest_first rows')).
  split; [by simpl; rewrite lookup_insert_eq|].
  split; [by simpl; rewrite !app_assoc, last_snoc|].
  apply StreamFacts.read_table_bounded in Hread as [Hh Hrows].
  rewrite (create_sorted_copy_quiet_run dst (Some p2) _ text);
    [|done|by simpl; rewrite lookup_insert_eq|by simpl].
  cbv zeta. subst text.
  rewrite StreamFacts.read_table_written by (by try apply newest_first_bounded).
  rewrite newest_first_twice.
  by rewrite (skipped_none _ (newest_first_accepted rows')), app_nil_l.
Qed.

Lemma sorted_copy_is_a_fixed_point_witness :
  exists text n,
    files (create_sorted_copy "/data/scan.csv" None Sample.w).2 !! "/data/scan_sorted.csv"
      = Some text /\
    last (stdout (create_sorted_copy "/data/scan.csv" None Sample.w).2)
      = Some (msg_success n "/data/scan_sorted.csv") /\
    create_sorted_copy "/data/scan_sorted.csv" (Some "/data/again.csv")
      (create_sorted_copy "/data/scan.csv" None Sample.w).2
    = (inr (Some "/data/again.csv"),
       World (<["/data/again.csv" := text]>
                (files (create_sorted_copy "/data/scan.csv" None Sample.w).2))
             (stdout (create_sorted_copy "/data/scan.csv" None Sample.w).2
                ++ [msg_success n "/data/again.csv"]) []).
Proof.
  apply (sorted_copy_is_a_fixed_point "/data/scan.csv" None Sample.w); by vm_compute.
Defined.

(** ** Which sources are sorted *)

(** X12: with an environment that lets every call through, a source that
    exists and is not the destination, every source that is not empty and
    has no more characters than the field limit of the reader is sorted:
    the run cannot fail on it.  A run that returns [None] had an empty
    source (there is no header, and the message carries [StopIteration],
    whose text is empty) or a source longer than the limit (and the
    message is the one of [csv.Error]). *)
Theorem short_tables_are_sorted (csv_path : string) (output_path : option string)
    (w : world) (data : string) :
  faults w = [] ->
  files w !! csv_path = Some data ->
  csv_path <> destination csv_path output_path ->
  let run := create_sorted_copy csv_path output_path w in
  (data <> "" -> (N.of_nat (String.length data) <= Csv.field_limit)%N ->
   run.1 = inr (Some (destination csv_path output_path))) /\
  (run.1 = inr None ->
   data = "" /\ last (stdout run.2) = Some (msg_error StopIteration) \/
   (Csv.field_limit < N.of_nat (String.length data))%N /\
   last (stdout run.2) = Some (msg_error csv_Error)).
Proof.
  intros Hq Hsrc Hne run. subst run.
  rewrite (create_sorted_copy_quiet_run _ _ _ data Hq Hsrc Hne). cbv zeta.
  destruct (read_table data) as [e|[header rows]] eqn:Hread; simpl.
  - apply ReadFacts.read_table_fails in Hread as [[-> ->]|[-> Hlong]].
    + split; [done|]. intros _. left. by rewrite last_snoc.
    + split; [lia|]. intros _. right. by rewrite last_snoc.
  - by split.
Qed.

Lemma short_tables_are_sorted_witness :
  let run := create_sorted_copy "/data/scan.csv" None Sample.w in
  (Sample.log <> "" -> (N.of_nat (String.length Sample.log) <= Csv.field_limit)%N ->
   run.1 = inr (Some (destination "/data/scan.csv" None))) /\
  (run.1 = inr None ->
   Sample.log = "" /\ last (stdout run.2) = Some (msg_error StopIteration) \/
   (Csv.field_limit < N.of_nat (String.length Sample.log))%N /\
   last (stdout run.2) = Some (msg_error csv_Error)).
Proof.
  apply (short_tables_are_sorted "/data/scan.csv" None Sample.w Sample.log);
    by vm_compute.
Defined.

(** ** Timestamps that are accepted *)

Module TimestampFacts.
Import Regex Strptime.
#[local] Open Scope Z_scope.

Lemma digit_of_cases (n : Z) :
  exists d : nat, (d < 10)%nat /\ n mod 10 = Z.of_nat d /\
    digit_of n = ascii_of_nat (48 + d).
Proof.
  exists (Z.to_nat (n mod 10)).
  pose proof (Z.mod_pos_bound n 10 ltac:(lia)).
  split; [lia|]. split; [lia|].
  unfold digit_of. f_equal. lia.
Qed.

Ltac digit_cases n :=
  let d := fresh "d" in
  let Hd := fresh "Hd" in
  let Hmod := fresh "Hmod" in
  let Heq := fresh "Heq" in
  destruct (digit_of_cases n) as (d & Hd & Hmod & Heq);
  rewrite Heq;
  do 10 (destruct d as [|d]; [by vm_compute|]);
  lia.

Lemma digit_digit_of (n : Z) : digit (digit_of n) = true.
Proof. digit_cases n. Qed.

Lemma space_digit_of (n : Z) : space (digit_of n) = false.
Proof. digit_cases n. Qed.

Lemma digit_of_not (c : ascii) (n : Z) : digit c = false -> digit_of n <> c.
Proof. intros Hc <-. by rewrite digit_digit_of in Hc. Qed.

Lemma digit_of_value (n : Z) :
  Z.of_nat (nat_of_ascii (digit_of n)) - 48 = n mod 10.
Proof.
  destruct (digit_of_cases n) as (d & Hd & -> & ->).
  do 10 (destruct d as [|d]; [by vm_compute|]). lia.
Qed.

(** *** The numbers *)

Lemma int_pad2 (n : Z) : 0 <= n <= 99 -> int (pad2 n) = inr n.
Proof.
  intros Hn. unfold int, pad2. cbn [lstrip]. rewrite space_digit_of.
  cbn [digits_value]. rewrite !digit_digit_of, !digit_of_value.
  f_equal. Z.div_mod_to_equations. lia.
Qed.

Lemma int_pad4 (n : Z) : 0 <= n <= 9999 -> int (pad4 n) = inr n.
Proof.
  intros Hn. unfold int, pad4, pad2. cbn [lstrip]. rewrite space_digit_of.
  cbn [digits_value]. rewrite !digit_digit_of, !digit_of_value.
  f_equal. Z.div_mod_to_equations. lia.
Qed.

(** *** The groups *)

Lemma take_prefix (p s : string) :
  Str.take (String.length (p +:+ s) - String.length s) (p +:+ s) = p.
Proof.
  rewrite StrFacts.length_app, Nat.add_sub. apply StrFacts.take_app.
Qed.

Lemma go_group2 (name : string) (r : regex) (a b : ascii) :
  takes2 r a b ->
  forall (R : Type) (s : string) (caps : captures)
         (k : string -> captures -> option R) (x : R),
    k s ((name, String a (String b "")) :: caps) = Some x ->
    go (Group name r) (String a (String b s)) caps k = Some x.
Proof.
  intros Hr R s caps k x Hk. cbn [go]. apply Hr.
  pose proof (take_prefix (String a (String b "")) s) as Htake.
  cbn [String.append] in Htake. by rewrite Htake.
Qed.

Lemma go_Y (y : Z) (R : Type) (s : string) (caps : captures)
    (k : string -> captures -> option R) (x : R) :
  k s (("Y", pad4 y) :: caps) = Some x ->
  go re_Y (pad4 y +:+ s) caps k = Some x.
Proof.
  intros Hk. unfold re_Y, d, pad4, pad2. cbn [go String.append].
  rewrite !digit_digit_of.
  pose proof (take_prefix (pad4 y) s) as Htake.
  unfold pad4, pad2 in Htake. cbn [String.append] in Htake. by rewrite Htake.
Qed.

Ltac enum x :=
  repeat match goal with
         | H : (?lo <= x <= ?hi)%Z |- _ =>
             first
               [ (assert (hi < lo)%Z by done; lia)
               | let lo' := eval cbv in (lo + 1)%Z in
                 destruct (decide (x = lo)) as [->|?];
                 [clear H|assert (lo' <= x <= hi)%Z by lia; clear H] ]
         end.

Ltac takes2_by_cases x :=
  enum x; intros R s caps k v Hk; vm_compute; by rewrite Hk.

Lemma takes2_m (m : Z) :
  1 <= m <= 12 ->
  takes2 (Chr "1" · r "0" "2" ∣ Chr "0" · r "1" "9" ∣ r "1" "9")%re
    (digit_of (m / 10)) (digit_of m).
Proof. intros Hm. takes2_by_cases m. Qed.

Lemma takes2_d (n : Z) :
  1 <= n <= 31 ->
  takes2 (Chr "3" · r "0" "1" ∣ r "1" "2" · d ∣ Chr "0" · r "1" "9"
          ∣ r "1" "9" ∣ Chr " " · r "1" "9")%re
    (digit_of (n / 10)) (digit_of n).
Proof. intros Hn. takes2_by_cases n. Qed.

Lemma takes2_H (h : Z) :
  0 <= h <= 23 ->
  takes2 (Chr "2" · r "0" "3" ∣ r "0" "1" · d ∣ d)%re
    (digit_of (h / 10)) (digit_of h).
Proof. intros Hh. takes2_by_cases h. Qed.

Lemma takes2_M (mi : Z) :
  0 <= mi <= 59 ->
  takes2 (r "0" "5" · d ∣ d)%re (digit_of (mi / 10)) (digit_of mi).
Proof. intros Hmi. takes2_by_cases mi. Qed.

Lemma takes2_S (s : Z) :
  0 <= s <= 59 ->
  takes2 (Chr "6" · r "0" "1" ∣ r "0" "5" · d ∣ d)%re
    (digit_of (s / 10)) (digit_of s).
Proof. intros Hs. takes2_by_cases s. Qed.


(** *** The whole format *)

Lemma plus_go_space {R : Type} (n : Z) (s : string) (k : string -> option R) (x : R) :
  k (String (digit_of n) s) = Some x ->
  plus_go space (String " " (String (digit_of n) s)) k = Some x.
Proof.
  intros Hk. cbn [plus_go]. replace (space " ") with true by done.
  by rewrite space_digit_of.
Qed.

Lemma re_match_timestamp (t : Datetime.datetime) :
  valid_datetime t ->
  re_match format_regex (timestamp t)
  = Some ([("S", pad2 (Datetime.second t)); ("M", pad2 (Datetime.minute t));
           ("H", pad2 (Datetime.hour t)); ("d", pad2 (Datetime.day t));
           ("m", pad2 (Datetime.month t)); ("Y", pad4 (Datetime.year t))], "").
Proof.
  intros (Hy & Hm & Hd & Hh & Hmi & Hs).
  assert (1 <= Datetime.day t <= 31) as Hd'.
  { split; [lia|]. etrans; [apply Hd|].
    unfold Datetime.days_in_month. repeat case_match; lia. }
  unfold re_match, format_regex, timestamp. cbn [go].
  apply go_Y. cbn [String.append go]. rewrite decide_True by done.
  unfold re_m, pad2 at 1. cbn [String.append].
  apply go_group2; [by apply takes2_m|].
  cbn [String.append go]. rewrite decide_True by done.
  unfold re_d, pad2 at 1. cbn [String.append].
  apply go_group2; [by apply takes2_d|].
  unfold pad2 at 1. cbn [String.append go].
  apply plus_go_space.
  unfold re_H. apply go_group2; [by apply takes2_H|].
  cbn [String.append go]. rewrite decide_True by done.
  unfold re_M, pad2 at 1. cbn [String.append].
  apply go_group2; [by apply takes2_M|].
  cbn [String.append go]. rewrite decide_True by done.
  unfold re_S, pad2 at 1. cbn [String.append].
  apply go_group2; [by apply takes2_S|].
  done.
Qed.

(** [strptime] reads a valid datetime back from its text. *)
Lemma strptime_timestamp (t : Datetime.datetime) :
  valid_datetime t -> strptime (timestamp t) = inr t.
Proof.
  intros Hvalid. unfold strptime. rewrite re_match_timestamp by done.
  destruct Hvalid as (Hy & Hm & Hd & Hh & Hmi & Hs).
  assert (1 <= Datetime.day t <= 31) as Hd'.
  { split; [lia|]. etrans; [apply Hd|].
    unfold Datetime.days_in_month. repeat case_match; lia. }
  set (found := [("S", _); _; _; _; _; _]).
  assert (forall name n default,
            group name found = Some (pad2 n) -> 0 <= n <= 99 ->
            field name default found = inr n) as Hfield.
  { intros name n default Hg Hn. unfold field. rewrite Hg. by apply int_pad2. }
  assert (field "Y" 1900 found = inr (Datetime.year t)) as ->.
  { unfold field. replace (group "Y" found) with (Some (pad4 (Datetime.year t))) by done.
    apply int_pad4. lia. }
  cbn [rbind].
  rewrite (Hfield "m" (Datetime.month t)) by (done || lia). cbn [rbind].
  rewrite (Hfield "d" (Datetime.day t)) by (done || lia). cbn [rbind].
  rewrite (Hfield "H" (Datetime.hour t)) by (done || lia). cbn [rbind].
  rewrite (Hfield "M" (Datetime.minute t)) by (done || lia). cbn [rbind].
  rewrite (Hfield "S" (Datetime.second t)) by (done || lia). cbn [rbind].
  assert (Datetime.check_date_fields (Datetime.year t) (Datetime.month t)
            (Datetime.day t) = inr ()) as Hdate.
  { unfold Datetime.check_date_fields, Datetime.between.
    rewrite !(proj2 (Z.leb_le _ _)) by lia. done. }
  assert (Datetime.check_time_fields (Datetime.hour t) (Datetime.minute t)
            (Datetime.second t) = inr ()) as Htime.
  { unfold Datetime.check_time_fields, Datetime.between.
    rewrite !(proj2 (Z.leb_le _ _)) by lia. done. }
  unfold Datetime.new. rewrite Hdate, Htime. cbn [rbind]. by destruct t.
Qed.

(** *** The date part of a field *)

Lemma mem_timestamp (t : Datetime.datetime) : Str.mem "(" (timestamp t) = false.
Proof.
  unfold timestamp, pad4, pad2. cbn [String.append].
  cbn [Str.mem].
  by repeat rewrite decide_False by first [by apply digit_of_not|done].
Qed.

Lemma find_none (c1 c2 : ascii) (s : string) :
  Str.mem c2 s = false -> Str.find (String c1 (String c2 "")) s = None.
Proof.
  induction s as [|a s IH]; [done|]. cbn [Str.mem].
  case_decide as Ha; [done|]. intros Hs.
  cbn [Str.find Str.startswith]. rewrite (IH Hs).
  destruct (decide (c1 = a)) as [->|]; [|done].
  destruct s as [|b s]; [done|].
  cbn [Str.mem] in Hs. case_decide; [done|]. by rewrite decide_False by done.
Qed.

Lemma find_first (c1 c2 : ascii) (s1 s2 : string) :
  c1 <> c2 -> Str.mem c2 s1 = false ->
  Str.find (String c1 (String c2 "")) (s1 +:+ String c1 (String c2 s2))
  = Some (String.length s1).
Proof.
  intros Hc. induction s1 as [|a s1 IH].
  - intros _. cbn [String.append Str.find Str.startswith].
    by rewrite !decide_True by done.
  - cbn [Str.mem]. case_decide as Ha; [done|]. intros Hs.
    cbn [String.append Str.find Str.startswith]. rewrite (IH Hs).
    destruct (decide (c1 = a)) as [->|]; [|done].
    destruct s1 as [|b s1].
    + cbn [String.append]. by rewrite decide_False by done.
    + cbn [String.append]. cbn [Str.mem] in Hs. case_decide; [done|].
      by rewrite decide_False by done.
Qed.

Lemma date_part_timestamp (t : Datetime.datetime) (rest : string) :
  rest = "" \/ Str.startswith " (" rest = true ->
  date_part (timestamp t +:+ rest) = timestamp t.
Proof.
  unfold date_part. intros [->|Hrest].
  - rewrite StrFacts.app_nil_r.
    by rewrite (find_none " " "(") by apply mem_timestamp.
  - destruct rest as [|a [|b rest]]; [done| |].
    { simpl in Hrest. by case_decide. }
    simpl in Hrest. repeat case_decide; try done. subst a b.
    rewrite (find_first " " "(") by (done || apply mem_timestamp).
    apply StrFacts.take_app.
Qed.

End TimestampFacts.

(** X13: a row whose first field is a timestamp of the calendar in the
    format of the log, zero padded, alone or followed by [" ("] and
    anything, is kept, and its sort key is that timestamp: the key reads
    back what the text says. *)
Theorem timestamps_are_kept (t : Datetime.datetime) (rest : string)
    (more : list string) :
  valid_datetime t ->
  rest = "" \/ Str.startswith " (" rest = true ->
  check_row ((timestamp t +:+ rest) :: more) = inr true /\
  sort_key ((timestamp t +:+ rest) :: more) = inr t.
Proof.
  intros Hvalid Hrest.
  rewrite check_row_cons, sort_key_cons.
  rewrite TimestampFacts.date_part_timestamp by done.
  rewrite TimestampFacts.strptime_timestamp by done.
  split; [|done].
  unfold timestamp, pad4. cbn [String.append].
  rewrite decide_False by done. cbn [Str.startswith].
  by rewrite decide_False by (by apply not_eq_sym, TimestampFacts.digit_of_not).
Qed.

Lemma timestamps_are_kept_witness :
  let t := Datetime.mk 2024 2 29 23 59 7 in
  check_row ((timestamp t +:+ " (Thu)") :: ["B"]) = inr true /\
  sort_key ((timestamp t +:+ " (Thu)") :: ["B"]) = inr t.
Proof.
  apply timestamps_are_kept.
  - unfold valid_datetime. simpl. lia.
  - right. reflexivity.
Defined.
